(** * SweetExperiencesEngine: achievement and notification engine

    Shallow embedding of [src/SweetExperiencesEngine.c].

    - C [int] and [time_t] values are integers in [Z]; the arithmetic the
      program performs on them is written with [Z.rem] (C's [%]) and an
      explicit 32-bit wrap-around where a counter is incremented.
    - [char] buffers holding NUL-terminated strings are [list ascii]
      (the characters before the terminator).
    - The two fixed arrays of the engine are lists indexed with stdpp's
      lookup and insert.
    - Everything the operating system answers (the clock, [rand], whether
      a file or the socket can be opened, file contents) is an explicit
      input; everything the program emits (socket payloads, log lines,
      the two standard streams, the store file) is part of the state.
    - The threads are interleaved turn by turn, a turn being one pass
      through the loop of a thread.  The mutex is a flag of the engine:
      a thread that asks for it while it is held does not go on. *)

From Stdlib Require Import ZArith List Ascii String Bool Lia.
From stdpp Require Import base option list.

Local Open Scope Z_scope.

(** ** Constants of the engine *)

Definition MAX_ACHIEVEMENTS : Z := 50.
Definition MAX_NOTIFICATIONS : Z := 100.
Definition DATA_BUFFER_SIZE : Z := 4096.

(** ** C strings *)

Definition cstr := list ascii.

Definition lit (s : string) : cstr := list_ascii_of_string s.

Definition NUL : ascii := ascii_of_nat 0.
Definition NL : ascii := ascii_of_nat 10.
Definition BAR : ascii := ascii_of_nat 124.
Definition DQUOTE : ascii := ascii_of_nat 34.

Definition ascii_eqb (a b : ascii) : bool := Ascii.eqb a b.

Fixpoint cstr_eqb (a b : cstr) : bool :=
  match a, b with
  | [], [] => true
  | x :: a', y :: b' => ascii_eqb x y && cstr_eqb a' b'
  | _, _ => false
  end.

(** What a [char*] denotes when the buffer holds [s]: the characters up
    to the first NUL. *)
Fixpoint c_string (s : list ascii) : cstr :=
  match s with
  | [] => []
  | c :: s' => if ascii_eqb c NUL then [] else c :: c_string s'
  end.

(** [strcmp (a, b) == 0]. *)
Definition strcmp_eq (a b : cstr) : bool := cstr_eqb a b.

(** [strncmp (s, p, strlen p) == 0] for a literal [p]. *)
Fixpoint has_prefix (p s : cstr) : bool :=
  match p, s with
  | [], _ => true
  | x :: p', y :: s' => ascii_eqb x y && has_prefix p' s'
  | _ :: _, [] => false
  end.

(** [strstr (s, p) != NULL]. *)
Fixpoint strstr_found (p s : cstr) : bool :=
  has_prefix p s ||
  match s with
  | [] => false
  | _ :: s' => strstr_found p s'
  end.

(** What [snprintf (dst, size, ...)] leaves in [dst] when the formatted
    text is [s] and [size >= 1]: at most [size - 1] characters. *)
Definition snprintf_trunc (size : Z) (s : cstr) : cstr := take (Z.to_nat (size - 1)) s.

(** ** Integers *)

(** Two's complement wrap-around of a [w]-bit signed integer. *)
Definition wrap (w : Z) (z : Z) : Z :=
  let m := 2 ^ w in
  let r := z mod m in
  if r <? 2 ^ (w - 1) then r else r - m.

Definition wrap32 := wrap 32.

Definition INT_MIN : Z := - 2 ^ 31.
Definition INT_MAX : Z := 2 ^ 31 - 1.
Definition LONG_MIN : Z := - 2 ^ 63.
Definition LONG_MAX : Z := 2 ^ 63 - 1.

(** ** Data model *)

Record Achievement := mkAchievement {
  id : cstr;            (* char id[32] *)
  name : cstr;          (* char name[64] *)
  description : cstr;   (* char description[128] *)
  progress : Z;
  target : Z;
  unlocked : Z;
  unlock_time : Z
}.

Record Notification := mkNotification {
  message : cstr;       (* char message[256] *)
  type : cstr;          (* char type[32] *)
  timestamp : Z;
  priority : Z
}.

Definition Achievement_zero : Achievement := mkAchievement [] [] [] 0 0 0 0.
Definition Notification_zero : Notification := mkNotification [] [] 0 0.

#[global] Instance Achievement_inhabited : Inhabited Achievement := populate Achievement_zero.
#[global] Instance Notification_inhabited : Inhabited Notification := populate Notification_zero.

(** The fields of [SweetEngine] the program reads or writes.  The thread
    handles and the two unused descriptors ([data_fd], [notif_sock]) are
    left out.  [data_mutex] is [true] while the mutex is held. *)
Record SweetEngine := mkSweetEngine {
  enabled : Z;
  data_mutex : bool;
  achievements : list Achievement;
  achievement_count : Z;
  notification_queue : list Notification;
  notification_count : Z;
  notification_head : Z;
  notification_tail : Z
}.

(** [SweetEngine engine = {0};] *)
Definition engine_zero : SweetEngine :=
  mkSweetEngine 0 false
    (replicate (Z.to_nat MAX_ACHIEVEMENTS) Achievement_zero) 0
    (replicate (Z.to_nat MAX_NOTIFICATIONS) Notification_zero) 0 0 0.

Definition set_enabled (v : Z) (e : SweetEngine) : SweetEngine :=
  mkSweetEngine v (data_mutex e) (achievements e) (achievement_count e)
    (notification_queue e) (notification_count e) (notification_head e) (notification_tail e).

Definition set_data_mutex (v : bool) (e : SweetEngine) : SweetEngine :=
  mkSweetEngine (enabled e) v (achievements e) (achievement_count e)
    (notification_queue e) (notification_count e) (notification_head e) (notification_tail e).

Definition set_achievements (v : list Achievement) (e : SweetEngine) : SweetEngine :=
  mkSweetEngine (enabled e) (data_mutex e) v (achievement_count e)
    (notification_queue e) (notification_count e) (notification_head e) (notification_tail e).

Definition set_achievement_count (v : Z) (e : SweetEngine) : SweetEngine :=
  mkSweetEngine (enabled e) (data_mutex e) (achievements e) v
    (notification_queue e) (notification_count e) (notification_head e) (notification_tail e).

(** [engine.achievements[i]] *)
Definition ach_at (e : SweetEngine) (i : Z) : Achievement :=
  achievements e !!! Z.to_nat i.

(** [engine.achievements[i] = a] *)
Definition set_ach_at (i : Z) (a : Achievement) (e : SweetEngine) : SweetEngine :=
  set_achievements (<[Z.to_nat i := a]> (achievements e)) e.

(** ** Notification queue

    The queue is written in one place and read in one place, both under
    the mutex.  [queue_push] is the guarded block of
    [wayland_event_listener] that stores a notification at
    [notification_tail]; [queue_pop] is what the critical section of
    [notification_dispatcher_thread] does to the queue fields. *)

Definition queue_push (n : Notification) (e : SweetEngine) : bool * SweetEngine :=
  if notification_count e <? MAX_NOTIFICATIONS - 1 then
    (true,
     mkSweetEngine (enabled e) (data_mutex e) (achievements e) (achievement_count e)
       (<[Z.to_nat (notification_tail e) := n]> (notification_queue e))
       (notification_count e + 1)
       (notification_head e)
       (Z.rem (notification_tail e + 1) MAX_NOTIFICATIONS))
  else (false, e).

(** [engine.notification_queue[engine.notification_head]], when the
    dispatcher's test [notification_head != notification_tail] passes. *)
Definition queue_front (e : SweetEngine) : option Notification :=
  if notification_head e =? notification_tail e then None
  else Some (notification_queue e !!! Z.to_nat (notification_head e)).

(** The two assignments that follow the delivery attempt. *)
Definition queue_advance (e : SweetEngine) : SweetEngine :=
  mkSweetEngine (enabled e) (data_mutex e) (achievements e) (achievement_count e)
    (notification_queue e)
    (notification_count e - 1)
    (Z.rem (notification_head e + 1) MAX_NOTIFICATIONS)
    (notification_tail e).

Definition queue_pop (e : SweetEngine) : option Notification * SweetEngine :=
  match queue_front e with
  | None => (None, e)
  | Some n => (Some n, queue_advance e)
  end.

(** ** Formatting and scanning integers *)

Definition digit_char (d : Z) : ascii := ascii_of_nat (48 + Z.to_nat d).

Definition is_digit (c : ascii) : bool :=
  let n := Z.of_nat (nat_of_ascii c) in (48 <=? n) && (n <=? 57).

Definition digit_val (c : ascii) : Z := Z.of_nat (nat_of_ascii c) - 48.

(** Decimal digits of [n >= 0], most significant first, put in front of
    [acc]. *)
Fixpoint dec_digits (fuel : nat) (n : Z) (acc : cstr) : cstr :=
  let acc' := digit_char (n mod 10) :: acc in
  match fuel with
  | O => acc'
  | S f => if n <? 10 then acc' else dec_digits f (n / 10) acc'
  end.

(** The text [%d] and [%ld] produce. *)
Definition print_int (z : Z) : cstr :=
  if z <? 0 then "-"%char :: dec_digits (Z.to_nat (Z.log2 (- z))) (- z) []
  else dec_digits (Z.to_nat (Z.log2 z)) z [].

(** [isspace] in the C locale. *)
Definition is_space (c : ascii) : bool :=
  let n := nat_of_ascii c in
  (n =? 32)%nat || ((9 <=? n)%nat && (n <=? 13)%nat).

Fixpoint skip_spaces (s : cstr) : cstr :=
  match s with
  | c :: s' => if is_space c then skip_spaces s' else s
  | [] => []
  end.

(** The longest run of digits at the front of [s], accumulated on [acc]. *)
Fixpoint scan_digits (s : cstr) (acc : Z) : Z * cstr :=
  match s with
  | c :: s' => if is_digit c then scan_digits s' (10 * acc + digit_val c) else (acc, s)
  | [] => (acc, [])
  end.

Definition clamp (lo hi z : Z) : Z := Z.max lo (Z.min hi z).

(** The integer a [%ld] directive reads: white space is skipped, a sign
    is optional, at least one digit is required.  The digits are
    converted as [strtol] does (saturating at the range of [long]). *)
Definition scan_long (s : cstr) : option (Z * cstr) :=
  let s := skip_spaces s in
  let '(neg, s1) :=
    match s with
    | c :: s' =>
        if ascii_eqb c "-"%char then (true, s')
        else if ascii_eqb c "+"%char then (false, s')
        else (false, s)
    | [] => (false, [])
    end in
  match s1 with
  | c :: _ =>
      if is_digit c then
        let '(v, rest) := scan_digits s1 0 in
        Some (clamp LONG_MIN LONG_MAX (if neg then - v else v), rest)
      else None
  | [] => None
  end.

(** The integer a [%d] directive stores: the [long] is narrowed to
    [int]. *)
Definition scan_int (s : cstr) : option (Z * cstr) :=
  match scan_long s with
  | Some (v, rest) => Some (wrap32 v, rest)
  | None => None
  end.

(** [%N[^|]]: between 1 and [width] characters other than the bar. *)
Fixpoint scan_until_bar (width : nat) (s : cstr) : cstr * cstr :=
  match width, s with
  | S w, c :: s' =>
      if ascii_eqb c BAR then ([], s)
      else let '(f, rest) := scan_until_bar w s' in (c :: f, rest)
  | _, _ => ([], s)
  end.

Definition scan_field (width : nat) (s : cstr) : option (cstr * cstr) :=
  match scan_until_bar width s with
  | ([], _) => None
  | (f, rest) => Some (f, rest)
  end.

(** A literal bar in the format. *)
Definition scan_bar (s : cstr) : option cstr :=
  match s with
  | c :: s' => if ascii_eqb c BAR then Some s' else None
  | [] => None
  end.

(** ** The store format *)

Definition store_header : cstr := lit "SWEETENGINE_DATA_v1" ++ [NL].

(** ["ACH:%s|%s|%s|%d|%d|%d|%ld\n"] *)
Definition format_achievement (a : Achievement) : cstr :=
  lit "ACH:" ++ id a ++ [BAR] ++ name a ++ [BAR] ++ description a ++ [BAR]
  ++ print_int (progress a) ++ [BAR] ++ print_int (target a) ++ [BAR]
  ++ print_int (unlocked a) ++ [BAR] ++ print_int (unlock_time a) ++ [NL].

(** [sscanf (line + 4, "%31[^|]|%63[^|]|%127[^|]|%d|%d|%d|%ld", ...)] on
    the slot [a]: the directives are taken in order, each one that
    matches assigns its field, and the first one that does not match
    ends the scan, leaving the remaining fields of the slot as they
    were. *)
Definition sscanf_achievement (s : cstr) (a : Achievement) : Achievement :=
  match scan_field 31 s with
  | None => a
  | Some (f1, s) =>
  let a := mkAchievement f1 (name a) (description a) (progress a) (target a) (unlocked a) (unlock_time a) in
  match scan_bar s with None => a | Some s =>
  match scan_field 63 s with
  | None => a
  | Some (f2, s) =>
  let a := mkAchievement (id a) f2 (description a) (progress a) (target a) (unlocked a) (unlock_time a) in
  match scan_bar s with None => a | Some s =>
  match scan_field 127 s with
  | None => a
  | Some (f3, s) =>
  let a := mkAchievement (id a) (name a) f3 (progress a) (target a) (unlocked a) (unlock_time a) in
  match scan_bar s with None => a | Some s =>
  match scan_int s with
  | None => a
  | Some (v4, s) =>
  let a := mkAchievement (id a) (name a) (description a) v4 (target a) (unlocked a) (unlock_time a) in
  match scan_bar s with None => a | Some s =>
  match scan_int s with
  | None => a
  | Some (v5, s) =>
  let a := mkAchievement (id a) (name a) (description a) (progress a) v5 (unlocked a) (unlock_time a) in
  match scan_bar s with None => a | Some s =>
  match scan_int s with
  | None => a
  | Some (v6, s) =>
  let a := mkAchievement (id a) (name a) (description a) (progress a) (target a) v6 (unlock_time a) in
  match scan_bar s with None => a | Some s =>
  match scan_long s with
  | None => a
  | Some (v7, _) =>
  mkAchievement (id a) (name a) (description a) (progress a) (target a) (unlocked a) v7
  end end end end end end end end end end end end end.

(** The tokens [strtok (buffer, "\n")] and its continuations return: the
    non-empty runs of characters between newlines. *)
Fixpoint strtok_lines_aux (cur : cstr) (s : cstr) : list cstr :=
  match s with
  | [] => match cur with [] => [] | _ => [rev cur] end
  | c :: s' =>
      if ascii_eqb c NL then
        match cur with
        | [] => strtok_lines_aux [] s'
        | _ => rev cur :: strtok_lines_aux [] s'
        end
      else strtok_lines_aux (c :: cur) s'
  end.

Definition strtok_lines (s : cstr) : list cstr := strtok_lines_aux [] s.

(** The [while (line && engine.achievement_count < MAX_ACHIEVEMENTS)]
    loop of [load_engine_data]. *)
Fixpoint parse_lines (lines : list cstr) (e : SweetEngine) : SweetEngine :=
  match lines with
  | [] => e
  | line :: rest =>
      if achievement_count e <? MAX_ACHIEVEMENTS then
        if has_prefix (lit "ACH:") line then
          let i := achievement_count e in
          let e := set_ach_at i (sscanf_achievement (drop 4 line) (ach_at e i)) e in
          parse_lines rest (set_achievement_count (i + 1) e)
        else parse_lines rest e
      else e
  end.

Definition with_text (i n d : cstr) (a : Achievement) : Achievement :=
  mkAchievement i n d (progress a) (target a) (unlocked a) (unlock_time a).

Definition with_target (t : Z) (a : Achievement) : Achievement :=
  mkAchievement (id a) (name a) (description a) (progress a) t (unlocked a) (unlock_time a).

(** The block under [if (engine.achievement_count == 0)]. *)
Definition seed_defaults (e : SweetEngine) : SweetEngine :=
  let e := set_ach_at 0
    (with_target 10 (with_text (lit "boot_master") (lit "Boot Master")
                       (lit "Boot 10 times successfully") (ach_at e 0))) e in
  let e := set_achievement_count 1 e in
  let e := set_ach_at 1
    (with_target 500 (with_text (lit "wayland_pro") (lit "Wayland Pro")
                        (lit "Process 500 Wayland events") (ach_at e 1))) e in
  set_achievement_count 2 e.

(** What [load_engine_data] does to the engine once [read] has returned
    the non-empty [data]. *)
Definition load_from_buffer (data : list ascii) (e : SweetEngine) : SweetEngine :=
  let e := parse_lines (strtok_lines (c_string data)) (set_achievement_count 0 e) in
  if achievement_count e =? 0 then seed_defaults e else e.

(** The [snprintf (buffer + written, sizeof (buffer) - written, ...)]
    calls of [save_engine_data].  The state is the text in the buffer and
    [written].  Once [written] exceeds the size of the buffer the size
    argument wraps around and the call writes past the array: there is no
    result. *)
Definition buffer_snprintf (s : cstr) (st : cstr * Z) : option (cstr * Z) :=
  let '(buf, written) := st in
  if DATA_BUFFER_SIZE <? written then None
  else Some (buf ++ snprintf_trunc (DATA_BUFFER_SIZE - written) s,
             written + Z.of_nat (length s)).

Fixpoint buffer_records (l : list Achievement) (st : cstr * Z) : option (cstr * Z) :=
  match l with
  | [] => Some st
  | a :: l' =>
      match buffer_snprintf (format_achievement a) st with
      | Some st' => buffer_records l' st'
      | None => None
      end
  end.

(** The bytes [write (fd, buffer, written)] puts in the file: the text,
    its terminator when [written] counts it, and nothing defined when
    [written] reaches past the array. *)
Definition buffer_bytes (st : cstr * Z) : option (list ascii) :=
  let '(buf, written) := st in
  if written <=? Z.of_nat (length buf) then Some buf
  else if written <=? DATA_BUFFER_SIZE then Some (buf ++ [NUL])
  else None.

(** The bytes [save_engine_data] writes for the engine [e]. *)
Definition serialize (e : SweetEngine) : option (list ascii) :=
  match buffer_snprintf store_header ([], 0) with
  | None => None
  | Some st =>
      match buffer_records (take (Z.to_nat (achievement_count e)) (achievements e)) st with
      | None => None
      | Some st' => buffer_bytes st'
      end
  end.

(** ** The world around the engine *)

(** What the program has emitted, next to the engine itself and the
    [static] counters of its functions.  [engine_log] holds one entry
    per line appended to [engine.log]: the time whose [ctime] text
    prefixes the line, and the event.  [save_calls] counts the entries
    into [save_engine_data]. *)
Record World := mkWorld {
  engine : SweetEngine;
  boot_count : Z;                 (* static, check_achievement_progress *)
  wayland_events : Z;             (* static, check_achievement_progress *)
  event_count : Z;                (* static, wayland_event_listener *)
  store : option (list ascii);    (* the data file, [None] when absent *)
  engine_log : list (Z * cstr);
  sock_out : list cstr;           (* payloads written to the socket *)
  stderr_out : list cstr;
  stdout_out : list cstr;
  save_calls : nat
}.

Definition world_zero : World :=
  mkWorld engine_zero 0 0 0 None [] [] [] [] 0%nat.

Definition set_engine (v : SweetEngine) (w : World) : World :=
  mkWorld v (boot_count w) (wayland_events w) (event_count w) (store w)
    (engine_log w) (sock_out w) (stderr_out w) (stdout_out w) (save_calls w).

Definition set_boot_count (v : Z) (w : World) : World :=
  mkWorld (engine w) v (wayland_events w) (event_count w) (store w)
    (engine_log w) (sock_out w) (stderr_out w) (stdout_out w) (save_calls w).

Definition set_event_count (v : Z) (w : World) : World :=
  mkWorld (engine w) (boot_count w) (wayland_events w) v (store w)
    (engine_log w) (sock_out w) (stderr_out w) (stdout_out w) (save_calls w).

Definition set_store (v : option (list ascii)) (w : World) : World :=
  mkWorld (engine w) (boot_count w) (wayland_events w) (event_count w) v
    (engine_log w) (sock_out w) (stderr_out w) (stdout_out w) (save_calls w).

Definition add_engine_log (v : Z * cstr) (w : World) : World :=
  mkWorld (engine w) (boot_count w) (wayland_events w) (event_count w) (store w)
    (engine_log w ++ [v]) (sock_out w) (stderr_out w) (stdout_out w) (save_calls w).

Definition add_sock_out (v : cstr) (w : World) : World :=
  mkWorld (engine w) (boot_count w) (wayland_events w) (event_count w) (store w)
    (engine_log w) (sock_out w ++ [v]) (stderr_out w) (stdout_out w) (save_calls w).

Definition add_stderr (v : cstr) (w : World) : World :=
  mkWorld (engine w) (boot_count w) (wayland_events w) (event_count w) (store w)
    (engine_log w) (sock_out w) (stderr_out w ++ [v]) (stdout_out w) (save_calls w).

Definition add_stdout (v : cstr) (w : World) : World :=
  mkWorld (engine w) (boot_count w) (wayland_events w) (event_count w) (store w)
    (engine_log w) (sock_out w) (stderr_out w) (stdout_out w ++ [v]) (save_calls w).

Definition count_save_call (w : World) : World :=
  mkWorld (engine w) (boot_count w) (wayland_events w) (event_count w) (store w)
    (engine_log w) (sock_out w) (stderr_out w) (stdout_out w) (S (save_calls w)).

(** The answers of the operating system during one step: the value of
    [time (NULL)] (one value for all the calls of the step), whether
    [connect] to the consumer's socket succeeds, whether [engine.log]
    opens for appending, whether the data file opens for reading (and
    [read] succeeds) and for writing. *)
Record Env := mkEnv {
  now : Z;
  consumer_up : bool;
  log_writable : bool;
  store_readable : bool;
  store_writable : bool
}.

(** ** Computations

    A function of the program either returns, in a new world, or never
    returns because the calling thread waits for a mutex it cannot get,
    or executes an operation C leaves undefined. *)
Inductive outcome (A : Type) : Type :=
| Done (a : A) (w : World)
| Blocked (w : World)
| Undefined (w : World).

Arguments Done {A} a w.
Arguments Blocked {A} w.
Arguments Undefined {A} w.

Definition M (A : Type) : Type := World -> outcome A.

Definition ret {A} (a : A) : M A := fun w => Done a w.

Definition bind {A B} (m : M A) (k : A -> M B) : M B :=
  fun w =>
    match m w with
    | Done a w' => k a w'
    | Blocked w' => Blocked w'
    | Undefined w' => Undefined w'
    end.

Notation "x <- m ;; k" := (bind m (fun x => k))
  (at level 90, m at level 80, right associativity).
Notation "m ;;; k" := (bind m (fun _ => k))
  (at level 90, right associativity).

Definition get : M World := fun w => Done w w.
Definition modify (f : World -> World) : M unit := fun w => Done tt (f w).
Definition modify_engine (f : SweetEngine -> SweetEngine) : M unit :=
  modify (fun w => set_engine (f (engine w)) w).

(** The world a computation leaves behind, however it ends. *)
Definition world_of {A} (o : outcome A) : World :=
  match o with
  | Done _ w => w
  | Blocked w => w
  | Undefined w => w
  end.

Definition returned {A} (o : outcome A) : bool :=
  match o with
  | Done _ _ => true
  | _ => false
  end.

(** [pthread_mutex_lock (&engine.data_mutex)].  The mutex is initialised
    with default attributes: locking it while it is held never returns,
    also when the holder is the caller. *)
Definition pthread_mutex_lock : M unit :=
  fun w =>
    if data_mutex (engine w) then Blocked w
    else Done tt (set_engine (set_data_mutex true (engine w)) w).

Definition pthread_mutex_unlock : M unit :=
  modify_engine (set_data_mutex false).

(** ** The functions of the program *)

Definition CONFIG_KEY : cstr := lit "SWEETENGINE=true".

(** One [fgets (line, 256, fp)]: at most [n] characters, ending after a
    newline; the rest of the file is returned with it. *)
Fixpoint fgets (n : nat) (s : list ascii) : list ascii * list ascii :=
  match n, s with
  | S n', c :: s' =>
      if ascii_eqb c NL then ([c], s')
      else let '(l, rest) := fgets n' s' in (c :: l, rest)
  | _, _ => ([], s)
  end.

(** The [while (fgets (...))] loop of [load_config]: whether some line
    contains the key.  [fuel] bounds the number of lines. *)
Fixpoint config_scan (fuel : nat) (s : list ascii) : bool :=
  match fuel, s with
  | S f, _ :: _ =>
      let '(line, rest) := fgets 255 s in
      if strstr_found CONFIG_KEY (c_string line) then true
      else config_scan f rest
  | _, _ => false
  end.

(** [load_config]; [cfg] is the content of the configuration file,
    [None] when [fopen] fails. *)
Definition load_config (cfg : option (list ascii)) : M Z :=
  match cfg with
  | None =>
      modify (add_stderr (lit "SweetEngine: Config file not found, defaulting to disabled" ++ [NL])) ;;;
      ret 0
  | Some content =>
      if config_scan (length content) content then
        modify_engine (set_enabled 1) ;;;
        modify (add_stdout (lit "SweetEngine: Enabled via config" ++ [NL])) ;;;
        ret 1
      else
        modify (add_stdout (lit "SweetEngine: Disabled via config" ++ [NL])) ;;;
        ret 0
  end.

(** The message [send_notification] formats into its 512-byte buffer. *)
Definition notification_payload (message type : cstr) (priority now : Z) : cstr :=
  snprintf_trunc 512
    (lit "{" ++ [DQUOTE] ++ lit "type" ++ [DQUOTE] ++ lit ":" ++ [DQUOTE] ++ type ++ [DQUOTE]
     ++ lit "," ++ [DQUOTE] ++ lit "message" ++ [DQUOTE] ++ lit ":" ++ [DQUOTE] ++ message ++ [DQUOTE]
     ++ lit "," ++ [DQUOTE] ++ lit "priority" ++ [DQUOTE] ++ lit ":" ++ print_int priority
     ++ lit "," ++ [DQUOTE] ++ lit "timestamp" ++ [DQUOTE] ++ lit ":" ++ print_int now
     ++ lit "}" ++ [NL]).

(** What [send_notification] prints when the consumer is out of
    reach. *)
Definition connect_failure : cstr :=
  lit "SweetEngine: Failed to connect to NotifEngine" ++ [NL].

(** [send_notification], with [connect_notif_engine] inlined as the
    answer [consumer_up]. *)
Definition send_notification (env : Env) (message type : cstr) (priority : Z) : M Z :=
  if consumer_up env then
    modify (add_sock_out (notification_payload message type priority (now env))) ;;;
    ret 0
  else
    modify (add_stderr connect_failure) ;;;
    ret (-1).

Definition random_msgs : list cstr :=
  [ lit "You're crushing it today!";
    lit "Smooth boot sequence detected";
    lit "System purring like a kitten";
    lit "Achievement streak active";
    lit "Lumen OS loves you back";
    lit "Battery optimization master";
    lit "Kernel threads dancing happily";
    lit "Wayland compositor flexing";
    lit "Memory pressure minimal";
    lit "You're a system wizard" ].

(** [generate_random_notification]; [r] is the value of [rand ()]. *)
Definition generate_random_notification (env : Env) (r : Z) : M unit :=
  send_notification env (random_msgs !!! Z.to_nat (Z.rem r 10)) (lit "random") 2 ;;;
  ret tt.

(** [log_engine_event] *)
Definition log_engine_event (env : Env) (event : cstr) : M unit :=
  if log_writable env then modify (add_engine_log (now env, event)) else ret tt.

(** [save_engine_data] *)
Definition save_engine_data (env : Env) : M Z :=
  modify count_save_call ;;;
  pthread_mutex_lock ;;;
  if store_writable env then
    w <- get ;;
    match serialize (engine w) with
    | Some bytes =>
        modify (set_store (Some bytes)) ;;;
        pthread_mutex_unlock ;;;
        ret 0
    | None => fun w => Undefined w
    end
  else
    pthread_mutex_unlock ;;;
    ret (-1).

(** [load_engine_data] *)
Definition load_engine_data (env : Env) : M Z :=
  w <- get ;;
  match (if store_readable env then store w else None) with
  | None => ret (-1)
  | Some content =>
      let data := take (Z.to_nat (DATA_BUFFER_SIZE - 1)) content in
      if (length data =? 0)%nat then ret (-1)
      else modify_engine (load_from_buffer data) ;;; ret 0
  end.

(** The first bytes of the unlock message as the source file has them. *)
Definition unlock_prefix : cstr :=
  map ascii_of_nat [195; 176; 197; 184; 226; 128; 160]%nat.

Definition unlock_message (a : Achievement) : cstr :=
  snprintf_trunc 256
    (unlock_prefix ++ lit " Achievement Unlocked: " ++ name a ++ lit "!" ++ [NL] ++ description a).

Definition mark_unlocked (t : Z) (a : Achievement) : Achievement :=
  mkAchievement (id a) (name a) (description a) (progress a) (target a) 1 t.

(** The loop of [unlock_achievement] over the indices [ix]: the first
    entry with the identifier that is not unlocked is unlocked, and the
    loop is left. *)
Fixpoint unlock_loop (env : Env) (ident : cstr) (ix : list Z) : M unit :=
  match ix with
  | [] => ret tt
  | i :: ix' =>
      fun w =>
        let a := ach_at (engine w) i in
        if strcmp_eq (id a) ident && (unlocked a =? 0) then
          (modify_engine (set_ach_at i (mark_unlocked (now env) a)) ;;;
           send_notification env (unlock_message a) (lit "achievement") 5 ;;;
           log_engine_event env (lit "Achievement unlocked") ;;;
           save_engine_data env ;;;
           ret tt) w
        else unlock_loop env ident ix' w
  end.

(** The indices [0 .. n-1] a [for] loop over the catalog visits. *)
Definition indices (n : Z) : list Z := map Z.of_nat (seq 0 (Z.to_nat n)).

(** [unlock_achievement] *)
Definition unlock_achievement (env : Env) (ident : cstr) : M unit :=
  fun w => unlock_loop env ident (indices (achievement_count (engine w))) w.

(** One of the two loops of [check_achievement_progress]: [counter]
    reads the static counter the loop compares with the target. *)
Fixpoint check_loop (env : Env) (ident : cstr) (counter : World -> Z) (ix : list Z) : M unit :=
  match ix with
  | [] => ret tt
  | i :: ix' =>
      (fun w =>
         let a := ach_at (engine w) i in
         if strcmp_eq (id a) ident && (target a <=? counter w) && (unlocked a =? 0)
         then unlock_achievement env ident w
         else Done tt w) ;;;
      check_loop env ident counter ix'
  end.

(** [check_achievement_progress] *)
Definition check_achievement_progress (env : Env) : M unit :=
  modify (fun w => set_boot_count (wrap32 (boot_count w + 1)) w) ;;;
  (fun w => check_loop env (lit "boot_master") boot_count
              (indices (achievement_count (engine w))) w) ;;;
  (fun w => check_loop env (lit "wayland_pro") wayland_events
              (indices (achievement_count (engine w))) w).

(** ** The workers *)

(** What [wayland_event_listener] stores in the slot at the tail. *)
Definition wayland_notification (env : Env) (count : Z) : Notification :=
  mkNotification
    (snprintf_trunc 256 (lit "Wayland events: " ++ print_int count ++ lit " processed"))
    (lit "system") (now env) 1.

(** The body of the loop of [achievement_monitor_thread]. *)
Definition achievement_monitor_body (env : Env) : M unit :=
  pthread_mutex_lock ;;;
  check_achievement_progress env ;;;
  pthread_mutex_unlock.

(** The body of the loop of [kernel_hook_listener]; [len] is what [read]
    on the inotify descriptor returns. *)
Definition kernel_hook_body (env : Env) (len : Z) : M unit :=
  if 0 <? len then
    pthread_mutex_lock ;;;
    check_achievement_progress env ;;;
    pthread_mutex_unlock
  else ret tt.

(** The body of the loop of [notification_dispatcher_thread]; [r1] and
    [r2] are the values [rand ()] returns to the loop and to
    [generate_random_notification]. *)
Definition notification_dispatcher_body (env : Env) (r1 r2 : Z) : M unit :=
  pthread_mutex_lock ;;;
  (fun w =>
     match queue_front (engine w) with
     | Some notif =>
         (send_notification env (message notif) (type notif) (priority notif) ;;;
          modify_engine queue_advance) w
     | None => Done tt w
     end) ;;;
  pthread_mutex_unlock ;;;
  if Z.rem r1 100 <? 5 then generate_random_notification env r2 else ret tt.

(** The body of the loop of [wayland_event_listener]; [r] is the value
    of [rand ()]. *)
Definition wayland_event_listener_body (env : Env) (r : Z) : M unit :=
  modify (fun w => set_event_count (wrap32 (event_count w + Z.rem r 10)) w) ;;;
  pthread_mutex_lock ;;;
  (fun w =>
     if Z.rem (event_count w) 50 =? 0 then
       Done tt (set_engine (snd (queue_push (wayland_notification env (event_count w)) (engine w))) w)
     else Done tt w) ;;;
  pthread_mutex_unlock.

(** The body of the loop of [main]; [len] is what [read] on the inotify
    descriptor returns and [cfg] what the configuration file holds
    then. *)
Definition main_loop_body (len : Z) (cfg : option (list ascii)) : M unit :=
  if 0 <? len then load_config cfg ;;; ret tt else ret tt.

(** [while (engine.enabled) body]: one test of the condition and, when
    it holds, one pass through the body. *)
Definition while_enabled (body : M unit) : M unit :=
  fun w => if enabled (engine w) =? 0 then Done tt w else body w.

(** [init_directories]: the data file is created, empty, when it is
    absent and can be created. *)
Definition init_directories (env : Env) : M unit :=
  modify (fun w =>
            match store w with
            | None => if store_writable env then set_store (Some []) w else w
            | Some _ => w
            end).

(** [main] up to the creation of the threads.  The result tells whether
    the threads are started. *)
Definition main_startup (env : Env) (cfg : option (list ascii)) : M bool :=
  modify (add_stdout (lit "SweetExperiencesEngine starting..." ++ [NL])) ;;;
  modify_engine (set_data_mutex false) ;;;
  init_directories env ;;;
  r <- load_config cfg ;;
  if r =? 0 then
    modify (add_stdout (lit "SweetEngine: Disabled by config" ++ [NL])) ;;;
    ret false
  else
    load_engine_data env ;;;
    w <- get ;;
    modify (add_stdout (lit "SweetEngine: Initialized with "
                        ++ print_int (achievement_count (engine w))
                        ++ lit " achievements" ++ [NL])) ;;;
    log_engine_event env (lit "Engine started") ;;;
    ret true.

(** [signal_handler], up to [exit]. *)
Definition signal_handler (env : Env) (sig : Z) : M unit :=
  modify (add_stdout (lit "SweetEngine: Received signal " ++ print_int sig
                      ++ lit ", shutting down" ++ [NL])) ;;;
  modify_engine (set_enabled 0) ;;;
  save_engine_data env ;;;
  ret tt.

(** ** Runs of the engine *)

(** One turn of one thread. *)
Inductive Step :=
| AchievementMonitor
| KernelHook (len : Z)
| NotificationDispatcher (r1 r2 : Z)
| WaylandListener (r : Z)
| ConfigWatch (len : Z) (cfg : option (list ascii)).

Definition step_body (env : Env) (s : Step) : M unit :=
  while_enabled
    match s with
    | AchievementMonitor => achievement_monitor_body env
    | KernelHook len => kernel_hook_body env len
    | NotificationDispatcher r1 r2 => notification_dispatcher_body env r1 r2
    | WaylandListener r => wayland_event_listener_body env r
    | ConfigWatch len cfg => main_loop_body len cfg
    end.

(** What a run is made of: a turn of a thread, a tick of the evaluator
    on its own, or an unlock attempt for an identifier. *)
Inductive Call :=
| Turn (s : Step)
| Tick
| UnlockAttempt (ident : cstr).

Definition call_body (env : Env) (c : Call) : M unit :=
  match c with
  | Turn s => step_body env s
  | Tick => check_achievement_progress env
  | UnlockAttempt ident => unlock_achievement env ident
  end.

(** The worlds a sequence of calls goes through, the first one included.
    A thread that blocks leaves the world as it is at that point, and the
    other calls go on from there; nothing is said of what follows an
    undefined operation. *)
Fixpoint run (calls : list (Env * Call)) (w : World) : list World :=
  match calls with
  | [] => [w]
  | (env, c) :: rest =>
      w :: match call_body env c w with
           | Undefined w' => [w']
           | o => run rest (world_of o)
           end
  end.

(** How often the entry at index [i] goes from locked to unlocked along
    a sequence of worlds. *)
Fixpoint unlock_transitions (i : Z) (ws : list World) : nat :=
  match ws with
  | w :: ((w' :: _) as rest) =>
      let fired := (unlocked (ach_at (engine w) i) =? 0)
                   && negb (unlocked (ach_at (engine w') i) =? 0) in
      Nat.add (if fired then 1%nat else 0%nat) (unlock_transitions i rest)
  | _ => 0%nat
  end.

(** Every live entry with the identifier is unlocked. *)
Definition all_unlocked (ident : cstr) (e : SweetEngine) : Prop :=
  forall i, 0 <= i < achievement_count e ->
    id (ach_at e i) = ident -> unlocked (ach_at e i) <> 0.

(** ** Runs of the queue *)

Inductive QueueOp :=
| Push (n : Notification)
| Pop.

(** The engine after the operations, the notifications the pushes
    stored and the notifications the pops returned, both in order. *)
Fixpoint queue_run (ops : list QueueOp) (e : SweetEngine) (stored popped : list Notification)
  : SweetEngine * list Notification * list Notification :=
  match ops with
  | [] => (e, stored, popped)
  | Push n :: rest =>
      let '(ok, e') := queue_push n e in
      queue_run rest e' (if ok then stored ++ [n] else stored) popped
  | Pop :: rest =>
      let '(r, e') := queue_pop e in
      queue_run rest e' stored (match r with Some n => popped ++ [n] | None => popped end)
  end.

(** Popping until the queue is empty, at most [fuel] times. *)
Fixpoint pop_all (fuel : nat) (e : SweetEngine) : list Notification * SweetEngine :=
  match fuel with
  | O => ([], e)
  | S f =>
      match queue_pop e with
      | (Some n, e') => let '(l, e'') := pop_all f e' in (n :: l, e'')
      | (None, _) => ([], e)
      end
  end.

Fixpoint push_all (l : list Notification) (e : SweetEngine) : list bool * SweetEngine :=
  match l with
  | [] => ([], e)
  | n :: l' =>
      let '(ok, e') := queue_push n e in
      let '(oks, e'') := push_all l' e' in (ok :: oks, e'')
  end.

(** ** Reloading the configuration *)

Fixpoint reloads (cfgs : list (option (list ascii))) (w : World) : World :=
  match cfgs with
  | [] => w
  | cfg :: rest => reloads rest (world_of (load_config cfg w))
  end.

(** ** Well-formed catalogs *)

(** A text field as the store format can carry it: not empty, shorter
    than its array, free of the bar, the newline and the terminator. *)
Definition text_ok (width : nat) (s : cstr) : Prop :=
  s <> [] /\ (length s <= width)%nat /\
  Forall (fun c => c <> BAR /\ c <> NL /\ c <> NUL) s.

Definition storable (a : Achievement) : Prop :=
  text_ok 31 (id a) /\ text_ok 63 (name a) /\ text_ok 127 (description a) /\
  INT_MIN <= progress a <= INT_MAX /\
  INT_MIN <= target a <= INT_MAX /\
  INT_MIN <= unlocked a <= INT_MAX /\
  LONG_MIN <= unlock_time a <= LONG_MAX.

(** The live entries of the catalog. *)
Definition catalog (e : SweetEngine) : list Achievement :=
  take (Z.to_nat (achievement_count e)) (achievements e).

(** The text [save_engine_data] formats for the catalog. *)
Definition store_text (l : list Achievement) : cstr :=
  store_header ++ concat (map format_achievement l).

Definition default_catalog : list Achievement :=
  [ mkAchievement (lit "boot_master") (lit "Boot Master") (lit "Boot 10 times successfully") 0 10 0 0;
    mkAchievement (lit "wayland_pro") (lit "Wayland Pro") (lit "Process 500 Wayland events") 0 500 0 0 ].

Definition env_ok (t : Z) : Env := mkEnv t true true true true.
Definition env_no_consumer (t : Z) : Env := mkEnv t false true true true.

(** ** The queue as a sequence *)

(** The circular array holds the sequence [pending], oldest first,
    starting at [notification_head]. *)
Definition queue_holds (e : SweetEngine) (pending : list Notification) : Prop :=
  length (notification_queue e) = Z.to_nat MAX_NOTIFICATIONS /\
  0 <= notification_head e < MAX_NOTIFICATIONS /\
  notification_count e = Z.of_nat (length pending) /\
  notification_count e <= MAX_NOTIFICATIONS - 1 /\
  notification_tail e = (notification_head e + notification_count e) mod MAX_NOTIFICATIONS /\
  forall k : nat, (k < length pending)%nat ->
    notification_queue e !! Z.to_nat ((notification_head e + Z.of_nat k) mod MAX_NOTIFICATIONS)
    = pending !! k.

(** A notification told apart by its priority. *)
Definition numbered (k : nat) : Notification :=
  mkNotification (lit "n") (lit "system") 0 (Z.of_nat k).

(** MAX_NOTIFICATIONS + 1 notifications, all different. *)
Definition numbered_101 : list Notification := map numbered (seq 0 101).

(** ** How the catalog changes *)

(** One entry before and after a computation that takes [time (NULL)]
    as [t]: either the entry is as it was, or it was locked, its
    identifier satisfies [P], and it is now marked unlocked at [t]. *)
Definition ach_evolves (P : cstr -> Prop) (t : Z) (a a' : Achievement) : Prop :=
  a' = a \/ (P (id a) /\ unlocked a = 0 /\ a' = mark_unlocked t a).

Definition evolves (P : cstr -> Prop) (t : Z) (w w' : World) : Prop :=
  achievement_count (engine w') = achievement_count (engine w) /\
  wayland_events w' = wayland_events w /\
  forall k, ach_evolves P t (ach_at (engine w) k) (ach_at (engine w') k).

(** The catalog and the counter of the second loop are untouched. *)
Definition same_catalog (w w' : World) : Prop :=
  achievements (engine w') = achievements (engine w) /\
  achievement_count (engine w') = achievement_count (engine w) /\
  wayland_events w' = wayland_events w.

(** A computation relates every world to the world it leaves. *)
Definition preserves {A} (R : World -> World -> Prop) (m : M A) : Prop :=
  forall w, R w (world_of (m w)).

(** No live entry named [wayland_pro] is unlocked or has a target the
    counter of the evaluator, still 0, has reached. *)
Definition wayland_locked (w : World) : Prop :=
  wayland_events w = 0 /\
  forall k, 0 <= k < achievement_count (engine w) ->
    id (ach_at (engine w) k) = lit "wayland_pro" ->
    0 < target (ach_at (engine w) k) /\ unlocked (ach_at (engine w) k) = 0.

Definition is_unlock_attempt (c : Env * Call) : bool :=
  match snd c with
  | UnlockAttempt _ => true
  | _ => false
  end.

(** The world the threads start in when the store holds the header
    only and the configuration enables the engine. *)
Definition world_seeded : World :=
  world_of (main_startup (env_ok 1000) (Some (lit "SWEETENGINE=true"))
              (set_store (Some store_header) world_zero)).

(** The seeded world after an unlock attempt for [wayland_pro]. *)
Definition world_wayland_unlocked : World :=
  world_of (call_body (env_ok 5) (UnlockAttempt (lit "wayland_pro")) world_seeded).

(** ** What an unlock leaves behind *)

(** The four fields of the queue. *)
Definition queue_state (e : SweetEngine) : list Notification * Z * Z * Z :=
  (notification_queue e, notification_count e, notification_head e, notification_tail e).


(** The entry at [i] is live and is the first locked entry with its
    identifier. *)
Definition first_locked (ident : cstr) (i : Z) (e : SweetEngine) : Prop :=
  0 <= i < achievement_count e /\
  (Z.to_nat i < length (achievements e))%nat /\
  id (ach_at e i) = ident /\
  unlocked (ach_at e i) = 0 /\
  forall j, 0 <= j < i -> id (ach_at e j) = ident -> unlocked (ach_at e j) <> 0.

(** No live entry with the identifier is locked with its target
    reached by [c]. *)
Definition none_due (ident : cstr) (c : Z) (e : SweetEngine) : Prop :=
  forall j, 0 <= j < achievement_count e ->
    ~ (id (ach_at e j) = ident /\ target (ach_at e j) <= c /\ unlocked (ach_at e j) = 0).

(** The seeded world after nine turns of the monitor thread. *)
Definition world_before_tenth : World :=
  Nat.iter 9 (fun w => world_of (step_body (env_ok 2000) AchievementMonitor w)) world_seeded.

(** The tenth turn of the monitor thread. *)
Definition world_after_tenth : World :=
  world_of (step_body (env_ok 2000) AchievementMonitor world_before_tenth).

(** The seeded world with one notification in the queue. *)
Definition world_one_queued : World :=
  set_engine (queue_push (numbered 1) (engine world_seeded)).2 world_seeded.

(** ** Starting up *)

Definition config_on : option (list ascii) := Some (lit "SWEETENGINE=true").

(** Startup when the data file is absent and cannot be created, when it
    is absent and [init_directories] creates it, empty, and when it
    holds the header only. *)
Definition startup_missing : outcome bool :=
  main_startup (mkEnv 1000 true true true false) config_on world_zero.

Definition startup_empty : outcome bool :=
  main_startup (env_ok 1000) config_on world_zero.

Definition startup_header_only : outcome bool :=
  main_startup (env_ok 1000) config_on (set_store (Some store_header) world_zero).

(** ** Lines of the store *)

(** A line as [strtok] returns it: not empty, and free of the newline
    and of the terminator. *)
Definition line_ok (l : cstr) : Prop :=
  l <> [] /\ Forall (fun c => c <> NL /\ c <> NUL) l.

(** The text of a file made of the lines, each ended by a newline. *)
Definition join_lines (ls : list cstr) : list ascii :=
  concat (map (fun l => l ++ [NL]) ls).

(** The record line of an entry, without its newline. *)
Definition record_line (a : Achievement) : cstr :=
  lit "ACH:" ++ id a ++ [BAR] ++ name a ++ [BAR] ++ description a ++ [BAR]
  ++ print_int (progress a) ++ [BAR] ++ print_int (target a) ++ [BAR]
  ++ print_int (unlocked a) ++ [BAR] ++ print_int (unlock_time a).

(** The lines that start with the record prefix. *)
Definition record_lines (ls : list cstr) : list cstr :=
  filter (fun l => has_prefix (lit "ACH:") l = true) ls.

(** The next character, if any, is not a digit. *)
Definition ends_number (rest : cstr) : Prop :=
  match rest with
  | [] => True
  | c :: _ => is_digit c = false
  end.

(** A store whose second record line has a name and nothing else. *)
Definition store_with_broken_line : list ascii :=
  store_header
  ++ lit "ACH:boot_master|Boot Master|Boot 10 times successfully|3|10|0|0" ++ [NL]
  ++ lit "ACH:broken" ++ [NL]
  ++ lit "ACH:wayland_pro|Wayland Pro|Process 500 Wayland events|0|500|0|0" ++ [NL].

(** The world of a restart over the store [content]. *)
Definition world_restart (content : list ascii) : World :=
  set_store (Some content) world_zero.





(** ** Further notions used by the properties of the whole program *)

(** [p] occurs in [s]. *)
Definition contains (p s : cstr) : Prop := exists pre post, s = pre ++ p ++ post.

(** A line of the configuration file that one [fgets] returns whole:
    shorter than the 255 characters the buffer takes, and free of the
    newline and of the terminator. *)
Definition config_line_ok (l : cstr) : Prop :=
  (length l < 255)%nat /\ Forall (fun c => c <> NL /\ c <> NUL) l.

(** The text [send_notification] formats, before it is cut to the size
    of the buffer. *)
Definition notification_text (message type : cstr) (priority now : Z) : cstr :=
  lit "{" ++ [DQUOTE] ++ lit "type" ++ [DQUOTE] ++ lit ":" ++ [DQUOTE] ++ type ++ [DQUOTE]
  ++ lit "," ++ [DQUOTE] ++ lit "message" ++ [DQUOTE] ++ lit ":" ++ [DQUOTE] ++ message ++ [DQUOTE]
  ++ lit "," ++ [DQUOTE] ++ lit "priority" ++ [DQUOTE] ++ lit ":" ++ print_int priority
  ++ lit "," ++ [DQUOTE] ++ lit "timestamp" ++ [DQUOTE] ++ lit ":" ++ print_int now
  ++ lit "}" ++ [NL].

(** The text [unlock_achievement] formats for an entry, before it is
    cut. *)
Definition unlock_text (a : Achievement) : cstr :=
  unlock_prefix ++ lit " Achievement Unlocked: " ++ name a ++ lit "!" ++ [NL] ++ description a.

(** The fields of the queue are those of a well-formed circular
    buffer. *)
Definition queue_ok (e : SweetEngine) : Prop := exists pending, queue_holds e pending.

(** The turns that ask for the mutex. *)
Definition takes_mutex (s : Step) : bool :=
  match s with
  | AchievementMonitor => true
  | KernelHook len => 0 <? len
  | NotificationDispatcher _ _ => true
  | WaylandListener _ => true
  | ConfigWatch _ _ => false
  end.

(** The turns that run the evaluator. *)
Definition runs_evaluator (s : Step) : bool :=
  match s with
  | AchievementMonitor => true
  | KernelHook len => 0 <? len
  | _ => false
  end.

(** A configuration file of three lines, the second of which holds the
    key after a comment sign. *)
Definition config_lines_sample : list cstr :=
  [ lit "[engine]"; lit "#SWEETENGINE=true"; lit "verbose=1" ].



(** A record whose three text fields fill their arrays. *)
Definition large_record : Achievement :=
  mkAchievement (replicate 31 "i"%char) (replicate 63 "n"%char) (replicate 127 "d"%char)
    0 0 0 0.


(** What loading leaves alone: every field of the engine but the
    catalog. *)
Definition beside_catalog (e : SweetEngine) : Z * bool * (list Notification * Z * Z * Z) :=
  (enabled e, data_mutex e, queue_state e).

(** The store after [init_directories]. *)
Definition store_after_init (env : Env) (s : option (list ascii)) : option (list ascii) :=
  match s with
  | None => if store_writable env then Some [] else None
  | Some c => Some c
  end.

(** The queue is untouched. *)
Definition same_queue (w w' : World) : Prop :=
  queue_state (engine w') = queue_state (engine w).

(** The bounds a well-formed queue keeps. *)
Definition queue_bounds (e : SweetEngine) : Prop :=
  0 <= notification_count e <= MAX_NOTIFICATIONS - 1 /\
  0 <= notification_head e < MAX_NOTIFICATIONS /\
  0 <= notification_tail e < MAX_NOTIFICATIONS /\
  notification_tail e = (notification_head e + notification_count e) mod MAX_NOTIFICATIONS /\
  length (notification_queue e) = Z.to_nat MAX_NOTIFICATIONS.

(** A run in which every kind of call occurs. *)
Definition mixed_run : list (Env * Call) :=
  [ (env_ok 2000, Turn (WaylandListener 0));
    (env_ok 2001, Turn (WaylandListener 50));
    (env_no_consumer 2002, Turn (NotificationDispatcher 3 4));
    (env_ok 2003, Turn AchievementMonitor);
    (env_ok 2004, Turn (KernelHook 16));
    (env_ok 2005, Tick);
    (env_ok 2006, UnlockAttempt (lit "wayland_pro"));
    (env_ok 2007, Turn (ConfigWatch 1 None));
    (env_ok 2008, Turn (NotificationDispatcher 50 0)) ].

(** What the seeding writes over the first two slots of [e]. *)
Definition seeded_over (e : SweetEngine) : list Achievement :=
  [ with_target 10 (with_text (lit "boot_master") (lit "Boot Master")
                      (lit "Boot 10 times successfully") (ach_at e 0));
    with_target 500 (with_text (lit "wayland_pro") (lit "Wayland Pro")
                       (lit "Process 500 Wayland events") (ach_at e 1)) ].

(** A slot with the identifier, or the identifier and the name,
    replaced. *)
Definition with_id (i : cstr) (a : Achievement) : Achievement :=
  mkAchievement i (name a) (description a) (progress a) (target a) (unlocked a) (unlock_time a).

Definition with_id_name (i n : cstr) (a : Achievement) : Achievement :=
  mkAchievement i n (description a) (progress a) (target a) (unlocked a) (unlock_time a).

(** A text field free of the bar. *)
Definition bar_free (s : cstr) : Prop := Forall (fun c => c <> BAR) s.

(** An unlocked entry left in a slot. *)
Definition stale_entry : Achievement :=
  mkAchievement (lit "old") (lit "Old name") (lit "Old description") 7 9 1 1234.

(** * Properties *)

(** ** The notification queue *)

Section Queue.

Local Ltac unfold_consts := unfold MAX_NOTIFICATIONS in *.

Lemma queue_holds_zero : queue_holds engine_zero [].
Proof.
  unfold queue_holds, MAX_NOTIFICATIONS; cbn.
  repeat split; try lia; try reflexivity.
Qed.

Lemma queue_holds_empty_iff e pending :
  queue_holds e pending ->
  (notification_head e = notification_tail e <-> pending = []).
Proof.
  intros (Hlen & Hh & Hc & Hmax & Ht & _); unfold_consts.
  split.
  - intros Heq. destruct pending as [|x l]; [reflexivity|exfalso].
    cbn [length] in Hc.
    rewrite Ht in Heq.
    assert (Hm : (notification_head e + notification_count e) mod 100
                 = notification_head e + notification_count e
                 \/ (notification_head e + notification_count e) mod 100
                 = notification_head e + notification_count e - 100).
    { destruct (Z_lt_dec (notification_head e + notification_count e) 100).
      - left. apply Z.mod_small; lia.
      - right. rewrite <- (Z.mod_small (notification_head e + notification_count e - 100) 100) by lia.
        replace (notification_head e + notification_count e - 100)
          with (notification_head e + notification_count e + (-1) * 100) by lia.
        now rewrite Z.mod_add by lia. }
    lia.
  - intros ->. cbn [length] in Hc. rewrite Ht, Hc, Z.add_0_r.
    symmetry; apply Z.mod_small; lia.
Qed.

Lemma queue_push_holds n e pending :
  queue_holds e pending ->
  (length pending < 99)%nat ->
  queue_push n e = (true, snd (queue_push n e)) /\
  queue_holds (snd (queue_push n e)) (pending ++ [n]).
Proof.
  intros (Hlen & Hh & Hc & Hmax & Ht & Hq) Hlt; unfold_consts.
  unfold queue_push; unfold_consts.
  assert (Hc' : (notification_count e <? 100 - 1) = true) by (apply Z.ltb_lt; lia).
  rewrite Hc'; cbn [snd]. split; [reflexivity|].
  assert (Htr : 0 <= notification_tail e < 100)
    by (rewrite Ht; apply Z.mod_pos_bound; lia).
  unfold queue_holds; cbn; unfold_consts.
  rewrite length_insert, length_app; cbn [length].
  repeat split; try lia.
  - rewrite Z.rem_mod_nonneg by lia.
    rewrite Ht, Zplus_mod_idemp_l. f_equal; lia.
  - intros k Hk.
    destruct (decide (k = length pending)) as [->|Hne].
    + rewrite <- Hc, <- Ht.
      rewrite list_lookup_insert_eq by lia.
      now rewrite lookup_app_r, Nat.sub_diag by lia.
    + assert (Hk' : (k < length pending)%nat) by lia.
      rewrite lookup_app_l by lia.
      rewrite <- Hq by lia.
      apply list_lookup_insert_ne.
      rewrite Ht, Hc. intros Heq.
      apply Z2Nat.inj in Heq; try (apply Z.mod_pos_bound; lia).
      assert (Hd : (Z.of_nat (length pending) - Z.of_nat k) mod 100 = 0).
      { rewrite Zminus_mod.
        rewrite <- (Zplus_mod_idemp_l (notification_head e)) in Heq.
        rewrite <- (Zplus_mod_idemp_l (notification_head e) (Z.of_nat k)) in Heq.
        apply (f_equal (fun z => (z - notification_head e mod 100) mod 100)) in Heq.
        rewrite !Zminus_mod_idemp_l in Heq.
        replace (notification_head e mod 100 + Z.of_nat (length pending) - notification_head e mod 100)
          with (Z.of_nat (length pending)) in Heq by lia.
        replace (notification_head e mod 100 + Z.of_nat k - notification_head e mod 100)
          with (Z.of_nat k) in Heq by lia.
        rewrite Heq, Z.sub_diag. reflexivity. }
      rewrite Z.mod_small in Hd by lia. lia.
Qed.

Lemma queue_push_full n e pending :
  queue_holds e pending ->
  (99 <= length pending)%nat ->
  queue_push n e = (false, e).
Proof.
  intros (_ & _ & Hc & _) Hge.
  unfold queue_push; unfold_consts.
  assert (Hc' : (notification_count e <? 100 - 1) = false) by (apply Z.ltb_ge; lia).
  now rewrite Hc'.
Qed.

Lemma queue_pop_empty e :
  queue_holds e [] -> queue_pop e = (None, e).
Proof.
  intros H. unfold queue_pop, queue_front.
  assert (Heq : notification_head e = notification_tail e)
    by (apply (queue_holds_empty_iff e []); auto).
  now rewrite Heq, Z.eqb_refl.
Qed.

Lemma queue_pop_holds x e pending :
  queue_holds e (x :: pending) ->
  queue_pop e = (Some x, queue_advance e) /\
  queue_holds (queue_advance e) pending.
Proof.
  intros H.
  assert (Hne : notification_head e <> notification_tail e).
  { intros Heq. apply (queue_holds_empty_iff e (x :: pending)) in Heq; [discriminate|auto]. }
  destruct H as (Hlen & Hh & Hc & Hmax & Ht & Hq); unfold_consts.
  cbn [length] in Hc.
  unfold queue_pop, queue_front.
  apply Z.eqb_neq in Hne; rewrite Hne.
  split.
  - f_equal. f_equal.
    specialize (Hq 0%nat ltac:(cbn; lia)).
    rewrite Z.add_0_r, Z.mod_small in Hq by lia.
    cbn in Hq. now apply list_lookup_total_correct.
  - unfold queue_holds, queue_advance; cbn; unfold_consts.
    repeat split; try lia.
    + apply Z.rem_nonneg; lia.
    + rewrite Z.rem_mod_nonneg by lia. apply Z.mod_pos_bound; lia.
    + rewrite Z.rem_mod_nonneg by lia.
      rewrite Zplus_mod_idemp_l, Ht. f_equal; lia.
    + intros k Hk.
      rewrite Z.rem_mod_nonneg by lia.
      rewrite Zplus_mod_idemp_l.
      specialize (Hq (S k) ltac:(cbn; lia)).
      change (pending !! k) with ((x :: pending) !! S k).
      rewrite <- Hq. do 3 f_equal. lia.
Qed.

End Queue.

Lemma set_data_mutex_back e :
  data_mutex e = false -> set_data_mutex false (set_data_mutex true e) = e.
Proof. destruct e; cbn. now intros ->. Qed.

(** A turn of the dispatcher does to the engine what [queue_pop] does. *)
Lemma dispatcher_turn_pops env r1 r2 w :
  data_mutex (engine w) = false ->
  enabled (engine w) <> 0 ->
  returned (step_body env (NotificationDispatcher r1 r2) w) = true /\
  engine (world_of (step_body env (NotificationDispatcher r1 r2) w)) = (queue_pop (engine w)).2.
Proof.
  intros Hm Hen.
  unfold step_body, while_enabled.
  apply Z.eqb_neq in Hen. rewrite Hen.
  unfold notification_dispatcher_body, generate_random_notification, send_notification,
    pthread_mutex_lock, pthread_mutex_unlock, modify_engine, modify, bind, ret, queue_pop.
  rewrite Hm. cbn [engine set_engine].
  change (queue_front (set_data_mutex true (engine w))) with (queue_front (engine w)).
  destruct (queue_front (engine w)) as [n|], (consumer_up env), (Z.rem r1 100 <? 5);
    cbn; (split; [reflexivity|]);
    destruct (engine w); cbn in *; subst; reflexivity.
Qed.

(** A turn of the listener whose counter is a multiple of 50 does to
    the engine what [queue_push] does. *)
Lemma listener_turn_pushes env r w :
  data_mutex (engine w) = false ->
  enabled (engine w) <> 0 ->
  Z.rem (wrap32 (event_count w + Z.rem r 10)) 50 = 0 ->
  engine (world_of (step_body env (WaylandListener r) w))
  = (queue_push (wayland_notification env (wrap32 (event_count w + Z.rem r 10))) (engine w)).2.
Proof.
  intros Hm Hen Hev.
  unfold step_body, while_enabled.
  apply Z.eqb_neq in Hen. rewrite Hen.
  unfold wayland_event_listener_body, pthread_mutex_lock, pthread_mutex_unlock,
    modify_engine, modify, bind, ret.
  cbn [engine set_event_count event_count]. rewrite Hm.
  cbn [engine set_engine event_count set_event_count]. rewrite Hev. cbn [Z.eqb].
  cbn [world_of engine set_engine].
  unfold queue_push.
  change (notification_count (set_data_mutex true (engine w)))
    with (notification_count (engine w)).
  destruct (notification_count (engine w) <? MAX_NOTIFICATIONS - 1);
    cbn; destruct (engine w); cbn in *; subst; reflexivity.
Qed.

Lemma queue_holds_count e pending :
  queue_holds e pending ->
  notification_count e = Z.of_nat (length pending) /\ (length pending <= 99)%nat.
Proof.
  intros (_ & _ & Hc & Hmax & _). unfold MAX_NOTIFICATIONS in *. lia.
Qed.

Lemma queue_run_holds ops :
  forall e stored popped pending,
    queue_holds e pending ->
    stored = popped ++ pending ->
    exists pending',
      queue_holds (queue_run ops e stored popped).1.1 pending' /\
      (queue_run ops e stored popped).1.2
      = (queue_run ops e stored popped).2 ++ pending'.
Proof.
  induction ops as [|op ops IH]; intros e stored popped pending Hq Hs; cbn [queue_run].
  - exists pending. auto.
  - destruct op as [n|].
    + destruct (le_lt_dec 99 (length pending)) as [Hfull|Hroom].
      * rewrite (queue_push_full n e pending Hq Hfull).
        apply (IH e stored popped pending); auto.
      * destruct (queue_push_holds n e pending Hq Hroom) as [Heq Hq'].
        rewrite Heq.
        apply (IH _ _ _ (pending ++ [n]) Hq').
        subst stored. now rewrite app_assoc.
    + destruct pending as [|x pending].
      * rewrite (queue_pop_empty e Hq).
        apply (IH e stored popped []); auto.
      * destruct (queue_pop_holds x e pending Hq) as [Heq Hq'].
        rewrite Heq.
        apply (IH _ _ _ pending Hq').
        subst stored. now rewrite <- app_assoc.
Qed.

Lemma push_all_holds l :
  forall e pending,
    queue_holds e pending ->
    queue_holds (push_all l e).2 (pending ++ take (99 - length pending) l) /\
    (push_all l e).1
    = replicate (Nat.min (length l) (99 - length pending)) true
      ++ replicate (length l - (99 - length pending)) false.
Proof.
  induction l as [|n l IH]; intros e pending Hq; cbn [push_all].
  - cbn. rewrite take_nil, app_nil_r. auto.
  - destruct (le_lt_dec 99 (length pending)) as [Hfull|Hroom].
    + rewrite (queue_push_full n e pending Hq Hfull).
      destruct (IH e pending Hq) as [Hq' Hoks].
      destruct (push_all l e) as [oks e'] eqn:Hp. cbn [fst snd] in *.
      replace (99 - length pending)%nat with 0%nat in * by lia.
      cbn [take] in *. split; [exact Hq'|].
      rewrite Hoks. rewrite !Nat.min_0_r, !Nat.sub_0_r. reflexivity.
    + destruct (queue_push_holds n e pending Hq Hroom) as [Heq Hq'].
      rewrite Heq.
      destruct (IH _ _ Hq') as [Hq'' Hoks].
      destruct (push_all l (queue_push n e).2) as [oks e'] eqn:Hp. cbn [fst snd] in *.
      rewrite length_app in *; cbn [length] in *.
      replace (99 - length pending)%nat with (S (99 - (length pending + 1)))%nat by lia.
      cbn [take]. split.
      * rewrite <- app_assoc in Hq''. exact Hq''.
      * rewrite Hoks. cbn. reflexivity.
Qed.

Lemma pop_all_holds fuel :
  forall e pending,
    queue_holds e pending ->
    (length pending <= fuel)%nat ->
    (pop_all fuel e).1 = pending /\ queue_holds (pop_all fuel e).2 [].
Proof.
  induction fuel as [|fuel IH]; intros e pending Hq Hlen.
  - destruct pending; [|cbn in Hlen; lia]. cbn. auto.
  - destruct pending as [|x pending]; cbn [pop_all].
    + rewrite (queue_pop_empty e Hq). cbn. auto.
    + destruct (queue_pop_holds x e pending Hq) as [Heq Hq'].
      rewrite Heq.
      destruct (IH _ _ Hq') as [H1 H2]; [cbn in Hlen; lia|].
      destruct (pop_all fuel (queue_advance e)) as [l e']. cbn [fst snd] in *.
      subst l. auto.
Qed.

(** C5: along every sequence of pushes and pops from the empty queue,
    [notification_count] stays within 0 .. MAX_NOTIFICATIONS; the
    notifications popped so far are, in order, the first ones stored,
    and those not yet popped are as many as [notification_count] says;
    popping the empty queue returns nothing and leaves the engine as it
    is; and popping a queue that is not empty returns the oldest
    notification still stored and lowers the count by one. *)
Theorem queue_fifo_bounded (ops : list QueueOp) (e : SweetEngine)
    (stored popped : list Notification) :
  queue_run ops engine_zero [] [] = (e, stored, popped) ->
  0 <= notification_count e <= MAX_NOTIFICATIONS /\
  (exists pending,
      stored = popped ++ pending /\
      notification_count e = Z.of_nat (length pending)) /\
  (notification_count e = 0 -> queue_pop e = (None, e)) /\
  (forall x pending,
      stored = popped ++ x :: pending ->
      (queue_pop e).1 = Some x /\
      notification_count (queue_pop e).2 = notification_count e - 1 /\
      notification_queue (queue_pop e).2 = notification_queue e /\
      notification_tail (queue_pop e).2 = notification_tail e).
Proof.
  intros Hrun.
  destruct (queue_run_holds ops engine_zero [] [] [] queue_holds_zero eq_refl)
    as (pending & Hq & Hs).
  rewrite Hrun in Hq, Hs; cbn [fst snd] in Hq, Hs.
  destruct (queue_holds_count _ _ Hq) as [Hc Hle].
  unfold MAX_NOTIFICATIONS.
  split; [lia|]. split; [exists pending; auto|]. split.
  - intros H0. destruct pending; [|cbn in Hc; lia].
    now apply queue_pop_empty.
  - intros x pending' Hs'.
    rewrite Hs in Hs'. apply app_inv_head in Hs'. subst pending.
    destruct (queue_pop_holds x e pending' Hq) as [Heq _].
    rewrite Heq. cbn. auto.
Qed.

Lemma queue_fifo_bounded_witness :
  exists e,
    queue_run [Push (numbered 1); Push (numbered 2); Pop] engine_zero [] []
    = (e, [numbered 1; numbered 2], [numbered 1]) /\
    (queue_pop e).1 = Some (numbered 2).
Proof.
  eexists. split; [vm_compute; reflexivity|].
  refine (proj1 (proj2 (proj2 (proj2
    (queue_fifo_bounded [Push (numbered 1); Push (numbered 2); Pop] _
       [numbered 1; numbered 2] [numbered 1] _))) (numbered 2) [] eq_refl)).
  vm_compute; reflexivity.
Defined.

(** C4, as the code has it: the array has MAX_NOTIFICATIONS = 100 slots
    and the queue stores at most 99 notifications.  Of any sequence
    pushed into the empty queue the first 99 are stored and every later
    push is rejected, leaving the queue as it is; popping everything then
    returns exactly those first 99, in the order pushed. *)
Theorem queue_keeps_first_99 (l : list Notification) :
  (push_all l engine_zero).1
  = replicate (Nat.min (length l) 99) true ++ replicate (length l - 99) false /\
  notification_count (push_all l engine_zero).2 = Z.of_nat (Nat.min (length l) 99) /\
  (pop_all (Z.to_nat MAX_NOTIFICATIONS) (push_all l engine_zero).2).1 = take 99 l.
Proof.
  destruct (push_all_holds l engine_zero [] queue_holds_zero) as [Hq Hoks].
  cbn [length app] in Hq, Hoks. rewrite Nat.sub_0_r in Hq, Hoks.
  split; [exact Hoks|].
  destruct (queue_holds_count _ _ Hq) as [Hc Hle].
  split.
  - rewrite Hc, length_take, Nat.min_comm. reflexivity.
  - apply pop_all_holds; [exact Hq|].
    unfold MAX_NOTIFICATIONS. lia.
Qed.

(** C4 fails as stated: of 101 notifications pushed into the empty queue
    only 99 are kept, the hundredth push is already rejected. *)
Lemma queue_capacity_counterexample :
  notification_count (push_all numbered_101 engine_zero).2 = 99 /\
  (push_all numbered_101 engine_zero).1 !! 99%nat = Some false /\
  (pop_all 101 (push_all numbered_101 engine_zero).2).1 = take 99 numbered_101 /\
  ~ (notification_count (push_all numbered_101 engine_zero).2 = MAX_NOTIFICATIONS /\
     (pop_all 101 (push_all numbered_101 engine_zero).2).1 = take 100 numbered_101).
Proof.
  vm_compute. repeat split; try reflexivity.
  intros [H _]. discriminate H.
Qed.

(** ** Reloading the configuration *)

Lemma load_config_enabled cfg w :
  enabled (engine (world_of (load_config cfg w))) = 1 \/
  engine (world_of (load_config cfg w)) = engine w.
Proof.
  unfold load_config. destruct cfg as [content|]; [|right; reflexivity].
  destruct (config_scan (length content) content); [left|right]; reflexivity.
Qed.

Lemma load_config_returns cfg w : returned (load_config cfg w) = true.
Proof.
  unfold load_config. destruct cfg as [content|]; [|reflexivity].
  destruct (config_scan (length content) content); reflexivity.
Qed.

(** C8: reading the configuration again, whatever the file holds and
    also when it cannot be opened, sets [enabled] to 1 or leaves the
    engine as it is; so after any number of reloads an engine that was
    enabled is still enabled. *)
Theorem config_reload_never_disables (cfgs : list (option (list ascii))) (w : World) :
  (enabled (engine (reloads cfgs w)) = 1 \/
   enabled (engine (reloads cfgs w)) = enabled (engine w)) /\
  (enabled (engine w) <> 0 -> enabled (engine (reloads cfgs w)) <> 0).
Proof.
  revert w. induction cfgs as [|cfg cfgs IH]; intros w; cbn [reloads].
  - split; [right; reflexivity | auto].
  - destruct (IH (world_of (load_config cfg w))) as [H1 H2].
    destruct (load_config_enabled cfg w) as [He|He].
    + split.
      * destruct H1 as [H1|H1]; [left; exact H1 | left; congruence].
      * intros _. apply H2. rewrite He. discriminate.
    + rewrite He in H1, H2. split; assumption.
Qed.

(** ** The catalog under the evaluator *)

Section Evolution.

Lemma strcmp_eq_spec a b : strcmp_eq a b = true <-> a = b.
Proof.
  unfold strcmp_eq. revert b.
  induction a as [|x a IH]; destruct b as [|y b]; cbn; try (split; congruence).
  rewrite andb_true_iff, IH. unfold ascii_eqb. rewrite Ascii.eqb_eq.
  split; [intros [-> ->]; reflexivity | intros [= -> ->]; auto].
Qed.

Lemma elem_of_indices k n : k ∈ indices n <-> 0 <= k < n.
Proof.
  unfold indices. rewrite list_elem_of_fmap. split.
  - intros (i & -> & Hi). apply elem_of_seq in Hi. lia.
  - intros Hk. exists (Z.to_nat k). split; [lia|]. apply elem_of_seq. lia.
Qed.

Lemma same_catalog_refl w : same_catalog w w.
Proof. repeat split. Qed.

Lemma same_catalog_trans w1 w2 w3 :
  same_catalog w1 w2 -> same_catalog w2 w3 -> same_catalog w1 w3.
Proof. unfold same_catalog. intros (?&?&?) (?&?&?). repeat split; congruence. Qed.

Lemma evolves_refl P t w : evolves P t w w.
Proof. repeat split. intros k. left. reflexivity. Qed.

Lemma ach_evolves_trans P t a b c :
  ach_evolves P t a b -> ach_evolves P t b c -> ach_evolves P t a c.
Proof.
  intros [->|(Hp & Hu & ->)] H2; [exact H2|].
  destruct H2 as [->|(_ & Hu' & _)]; [right; auto|].
  cbn in Hu'. discriminate.
Qed.

Lemma evolves_trans P t w1 w2 w3 :
  evolves P t w1 w2 -> evolves P t w2 w3 -> evolves P t w1 w3.
Proof.
  intros (H1 & H2 & H3) (H1' & H2' & H3').
  repeat split; try congruence.
  intros k. eapply ach_evolves_trans; eauto.
Qed.

Lemma same_catalog_evolves P t w w' : same_catalog w w' -> evolves P t w w'.
Proof.
  intros (Ha & Hc & Hw). repeat split; auto.
  intros k. left. unfold ach_at. now rewrite Ha.
Qed.

Lemma evolves_weaken (P Q : cstr -> Prop) t w w' :
  (forall s, P s -> Q s) -> evolves P t w w' -> evolves Q t w w'.
Proof.
  intros HPQ (H1 & H2 & H3). repeat split; auto.
  intros k. destruct (H3 k) as [->|(Hp & Hu & ->)]; [left|right]; auto.
Qed.

Lemma preserves_bind {A B} (R : World -> World -> Prop) (m : M A) (k : A -> M B) :
  (forall w1 w2 w3, R w1 w2 -> R w2 w3 -> R w1 w3) ->
  preserves R m -> (forall a, preserves R (k a)) -> preserves R (bind m k).
Proof.
  intros Htrans Hm Hk w. unfold bind.
  specialize (Hm w). destruct (m w) as [a w'|w'|w']; cbn in *; auto.
  eapply Htrans; [exact Hm|]. apply Hk.
Qed.

Lemma preserves_modify (R : World -> World -> Prop) f :
  (forall w, R w (f w)) -> preserves R (modify f).
Proof. intros H w. apply H. Qed.

Lemma preserves_ret {A} (R : World -> World -> Prop) (a : A) :
  (forall w, R w w) -> preserves R (ret a).
Proof. intros H w. apply H. Qed.

Local Ltac frame :=
  repeat first
    [ apply preserves_bind; [exact same_catalog_trans | | intros ?]
    | apply preserves_ret; exact same_catalog_refl
    | apply preserves_modify; intros ?; repeat split ].

Lemma send_notification_frame env m t p : preserves same_catalog (send_notification env m t p).
Proof. unfold send_notification. destruct (consumer_up env); frame. Qed.

Lemma log_engine_event_frame env ev : preserves same_catalog (log_engine_event env ev).
Proof. unfold log_engine_event. destruct (log_writable env); frame. Qed.

Lemma pthread_mutex_lock_frame : preserves same_catalog pthread_mutex_lock.
Proof. intros w. unfold pthread_mutex_lock. destruct (data_mutex (engine w)); repeat split. Qed.

Lemma pthread_mutex_unlock_frame : preserves same_catalog pthread_mutex_unlock.
Proof. intros w. repeat split. Qed.

Lemma save_engine_data_frame env : preserves same_catalog (save_engine_data env).
Proof.
  unfold save_engine_data.
  apply preserves_bind; [exact same_catalog_trans | frame | intros _].
  apply preserves_bind; [exact same_catalog_trans | exact pthread_mutex_lock_frame | intros _].
  destruct (store_writable env).
  - apply preserves_bind; [exact same_catalog_trans | intros w; apply same_catalog_refl | intros w0].
    destruct (serialize (engine w0)).
    + apply preserves_bind; [exact same_catalog_trans | frame | intros _].
      apply preserves_bind; [exact same_catalog_trans | exact pthread_mutex_unlock_frame | intros _].
      frame.
    + intros w. apply same_catalog_refl.
  - apply preserves_bind; [exact same_catalog_trans | exact pthread_mutex_unlock_frame | intros _].
    frame.
Qed.

Lemma generate_random_notification_frame env r :
  preserves same_catalog (generate_random_notification env r).
Proof.
  unfold generate_random_notification.
  apply preserves_bind; [exact same_catalog_trans | apply send_notification_frame | intros _].
  frame.
Qed.

Lemma load_config_frame cfg : preserves same_catalog (load_config cfg).
Proof.
  unfold load_config. destruct cfg as [content|]; [|frame].
  destruct (config_scan (length content) content); frame.
Qed.

Lemma ach_at_set_ach_at i a e k :
  ach_at (set_ach_at i a e) k = ach_at e k \/
  (ach_at e k = ach_at e i /\ ach_at (set_ach_at i a e) k = a).
Proof.
  unfold ach_at, set_ach_at; cbn.
  destruct (decide (Z.to_nat i = Z.to_nat k)) as [Heq|Hne].
  - destruct (le_lt_dec (length (achievements e)) (Z.to_nat i)) as [Hge|Hlt].
    + left. now rewrite list_insert_ge.
    + right. rewrite <- Heq. split; [reflexivity|].
      now apply list_lookup_total_insert_eq.
  - left. now apply list_lookup_total_insert_ne.
Qed.

(** The effects that follow the two assignments of an unlock. *)
Lemma unlock_effects_frame env a :
  preserves same_catalog
    (send_notification env (unlock_message a) (lit "achievement") 5 ;;;
     log_engine_event env (lit "Achievement unlocked") ;;;
     save_engine_data env ;;; ret tt).
Proof.
  apply preserves_bind; [exact same_catalog_trans | apply send_notification_frame | intros _].
  apply preserves_bind; [exact same_catalog_trans | apply log_engine_event_frame | intros _].
  apply preserves_bind; [exact same_catalog_trans | apply save_engine_data_frame | intros _].
  frame.
Qed.

Lemma mark_evolves P env i w :
  P (id (ach_at (engine w) i)) ->
  unlocked (ach_at (engine w) i) = 0 ->
  evolves P (now env) w
    (set_engine (set_ach_at i (mark_unlocked (now env) (ach_at (engine w) i)) (engine w)) w).
Proof.
  intros Hid Hu. repeat split. intros k. cbn [engine set_engine].
  destruct (ach_at_set_ach_at i (mark_unlocked (now env) (ach_at (engine w) i)) (engine w) k)
    as [->|[Hk ->]]; [left; reflexivity|].
  right. rewrite Hk. auto.
Qed.

Lemma unlock_loop_evolves env ident ix :
  preserves (evolves (eq ident) (now env)) (unlock_loop env ident ix).
Proof.
  induction ix as [|i ix IH]; intros w; cbn [unlock_loop].
  - apply evolves_refl.
  - destruct (strcmp_eq (id (ach_at (engine w) i)) ident
              && (unlocked (ach_at (engine w) i) =? 0)) eqn:Hc; [|apply IH].
    apply andb_true_iff in Hc. destruct Hc as [Hid Hu].
    apply strcmp_eq_spec in Hid. apply Z.eqb_eq in Hu.
    eapply evolves_trans; [apply (mark_evolves (eq ident) env i w); auto|].
    apply same_catalog_evolves.
    apply (unlock_effects_frame env (ach_at (engine w) i)).
Qed.

Lemma unlock_achievement_evolves env ident :
  preserves (evolves (eq ident) (now env)) (unlock_achievement env ident).
Proof. intros w. apply unlock_loop_evolves. Qed.

Lemma check_loop_evolves env ident counter ix :
  preserves (evolves (eq ident) (now env)) (check_loop env ident counter ix).
Proof.
  induction ix as [|i ix IH]; cbn [check_loop].
  - intros w. apply evolves_refl.
  - apply preserves_bind; [apply evolves_trans | | intros _; exact IH].
    intros w.
    destruct (strcmp_eq (id (ach_at (engine w) i)) ident
              && (target (ach_at (engine w) i) <=? counter w)
              && (unlocked (ach_at (engine w) i) =? 0)).
    + apply unlock_achievement_evolves.
    + apply evolves_refl.
Qed.

Lemma check_achievement_progress_evolves env :
  preserves (evolves (fun _ => True) (now env)) (check_achievement_progress env).
Proof.
  unfold check_achievement_progress.
  assert (Htr := evolves_trans (fun _ => True) (now env)).
  apply preserves_bind; [exact Htr | | intros _].
  { intros w. apply same_catalog_evolves. repeat split. }
  apply preserves_bind; [exact Htr | | intros _].
  - intros w. eapply evolves_weaken; [|apply check_loop_evolves]. auto.
  - intros w. eapply evolves_weaken; [|apply check_loop_evolves]. auto.
Qed.

Lemma notification_dispatcher_frame env r1 r2 :
  preserves same_catalog (notification_dispatcher_body env r1 r2).
Proof.
  unfold notification_dispatcher_body.
  apply preserves_bind; [exact same_catalog_trans | exact pthread_mutex_lock_frame | intros _].
  apply preserves_bind; [exact same_catalog_trans | | intros _].
  - intros w. destruct (queue_front (engine w)) as [notif|]; [|apply same_catalog_refl].
    revert w. apply preserves_bind;
      [exact same_catalog_trans | apply send_notification_frame | intros _].
    intros w. repeat split.
  - apply preserves_bind; [exact same_catalog_trans | exact pthread_mutex_unlock_frame | intros _].
    destruct (Z.rem r1 100 <? 5); [apply generate_random_notification_frame | frame].
Qed.

Lemma queue_push_catalog n e :
  achievements (queue_push n e).2 = achievements e /\
  achievement_count (queue_push n e).2 = achievement_count e.
Proof.
  unfold queue_push. destruct (notification_count e <? MAX_NOTIFICATIONS - 1); auto.
Qed.

Lemma wayland_event_listener_frame env r :
  preserves same_catalog (wayland_event_listener_body env r).
Proof.
  unfold wayland_event_listener_body.
  apply preserves_bind; [exact same_catalog_trans | frame | intros _].
  apply preserves_bind; [exact same_catalog_trans | exact pthread_mutex_lock_frame | intros _].
  apply preserves_bind; [exact same_catalog_trans | | intros _; exact pthread_mutex_unlock_frame].
  intros w. destruct (Z.rem (event_count w) 50 =? 0); [|apply same_catalog_refl].
  cbn [world_of]. unfold same_catalog; cbn [engine set_engine wayland_events].
  destruct (queue_push_catalog (wayland_notification env (event_count w)) (engine w)).
  auto.
Qed.

Lemma main_loop_frame len cfg : preserves same_catalog (main_loop_body len cfg).
Proof.
  unfold main_loop_body. destruct (0 <? len); [|frame].
  apply preserves_bind; [exact same_catalog_trans | apply load_config_frame | intros _].
  frame.
Qed.

(** Every turn of a thread that is not a tick of the evaluator leaves
    the catalog alone. *)
Lemma quiet_step_frame env s :
  match s with
  | AchievementMonitor => True
  | KernelHook len => len <= 0
  | _ => True
  end ->
  match s with
  | AchievementMonitor => True
  | _ => preserves same_catalog (step_body env s)
  end.
Proof.
  destruct s as [|len|r1 r2|r|len cfg]; intros Hs; [exact I|..];
    intros w; unfold step_body, while_enabled;
    (destruct (enabled (engine w) =? 0); [apply same_catalog_refl|]).
  - unfold kernel_hook_body.
    assert (Hl : (0 <? len) = false) by (apply Z.ltb_ge; lia).
    rewrite Hl. apply same_catalog_refl.
  - apply notification_dispatcher_frame.
  - apply wayland_event_listener_frame.
  - apply main_loop_frame.
Qed.

(** A tick of the evaluator under the mutex. *)
Lemma locked_check_preserves (R : World -> World -> Prop) env :
  (forall w1 w2 w3, R w1 w2 -> R w2 w3 -> R w1 w3) ->
  (forall w w', same_catalog w w' -> R w w') ->
  preserves R (check_achievement_progress env) ->
  preserves R (pthread_mutex_lock ;;; check_achievement_progress env ;;; pthread_mutex_unlock).
Proof.
  intros Htr Hsame Hcheck.
  apply preserves_bind; [exact Htr | | intros _].
  { intros w. apply Hsame, pthread_mutex_lock_frame. }
  apply preserves_bind; [exact Htr | exact Hcheck | intros _].
  intros w. apply Hsame, pthread_mutex_unlock_frame.
Qed.

Lemma step_body_preserves (R : World -> World -> Prop) env s :
  (forall w1 w2 w3, R w1 w2 -> R w2 w3 -> R w1 w3) ->
  (forall w w', same_catalog w w' -> R w w') ->
  preserves R (check_achievement_progress env) ->
  preserves R (step_body env s).
Proof.
  intros Htr Hsame Hcheck.
  assert (Hlocked := locked_check_preserves R env Htr Hsame Hcheck).
  destruct s as [|len|r1 r2|r|len cfg].
  - intros w. unfold step_body, while_enabled.
    destruct (enabled (engine w) =? 0); [apply Hsame, same_catalog_refl|].
    apply Hlocked.
  - intros w. unfold step_body, while_enabled, kernel_hook_body.
    destruct (enabled (engine w) =? 0); [apply Hsame, same_catalog_refl|].
    destruct (0 <? len); [apply Hlocked | apply Hsame, same_catalog_refl].
  - intros w. apply Hsame. apply (quiet_step_frame env (NotificationDispatcher r1 r2) I).
  - intros w. apply Hsame. apply (quiet_step_frame env (WaylandListener r) I).
  - intros w. apply Hsame. apply (quiet_step_frame env (ConfigWatch len cfg) I).
Qed.

Lemma call_body_evolves env c :
  preserves (evolves (fun _ => True) (now env)) (call_body env c).
Proof.
  destruct c as [s| |ident]; cbn [call_body].
  - apply step_body_preserves.
    + apply evolves_trans.
    + intros w w'. apply same_catalog_evolves.
    + apply check_achievement_progress_evolves.
  - apply check_achievement_progress_evolves.
  - intros w. eapply evolves_weaken; [|apply unlock_achievement_evolves]. auto.
Qed.

Lemma run_head calls w : exists rest, run calls w = w :: rest.
Proof. destruct calls as [|[env c] calls]; cbn; eauto. Qed.

Lemma unlock_transitions_cons k w w' rest :
  unlock_transitions k (w :: w' :: rest)
  = Nat.add (if (unlocked (ach_at (engine w) k) =? 0)
                && negb (unlocked (ach_at (engine w') k) =? 0)
             then 1%nat else 0%nat)
            (unlock_transitions k (w' :: rest)).
Proof. reflexivity. Qed.

Lemma unlocked_stays env c w k :
  unlocked (ach_at (engine w) k) <> 0 ->
  ach_at (engine (world_of (call_body env c w))) k = ach_at (engine w) k.
Proof.
  intros Hu. destruct (call_body_evolves env c w) as (_ & _ & H).
  destruct (H k) as [Heq|(_ & Hz & _)]; [exact Heq | contradiction].
Qed.

Lemma no_transition_once_unlocked k calls :
  forall w, unlocked (ach_at (engine w) k) <> 0 ->
    unlock_transitions k (run calls w) = 0%nat.
Proof.
  induction calls as [|[env c] calls IH]; intros w Hu; [reflexivity|].
  cbn [run].
  assert (Hfirst : (unlocked (ach_at (engine w) k) =? 0) = false) by now apply Z.eqb_neq.
  assert (Hnext := unlocked_stays env c w k Hu).
  destruct (call_body env c w) as [[] w'|w'|w'] eqn:Hc; cbn [world_of] in *.
  - destruct (run_head calls w') as [rest Hr]. rewrite Hr, unlock_transitions_cons, Hfirst.
    cbn [andb]. rewrite <- Hr. apply IH. now rewrite Hnext.
  - destruct (run_head calls w') as [rest Hr]. rewrite Hr, unlock_transitions_cons, Hfirst.
    cbn [andb]. rewrite <- Hr. apply IH. now rewrite Hnext.
  - rewrite unlock_transitions_cons, Hfirst. reflexivity.
Qed.

Lemma at_most_one_transition k calls :
  forall w, (unlock_transitions k (run calls w) <= 1)%nat.
Proof.
  induction calls as [|[env c] calls IH]; intros w; [cbn; lia|].
  cbn [run].
  assert (Hstep : forall w' rest,
             (unlock_transitions k (w' :: rest) <= 1)%nat ->
             (unlocked (ach_at (engine w') k) <> 0 -> unlock_transitions k (w' :: rest) = 0%nat) ->
             (unlock_transitions k (w :: w' :: rest) <= 1)%nat).
  { intros w' rest Hle Hz. rewrite unlock_transitions_cons.
    destruct ((unlocked (ach_at (engine w) k) =? 0)
              && negb (unlocked (ach_at (engine w') k) =? 0)) eqn:Hf; [|lia].
    apply andb_true_iff in Hf. destruct Hf as [_ Hf].
    apply negb_true_iff, Z.eqb_neq in Hf. rewrite (Hz Hf). lia. }
  destruct (call_body env c w) as [[] w'|w'|w']; cbn [world_of].
  - destruct (run_head calls w') as [rest Hr]. rewrite Hr. apply Hstep.
    + rewrite <- Hr. apply IH.
    + intros Hu. rewrite <- Hr. now apply no_transition_once_unlocked.
  - destruct (run_head calls w') as [rest Hr]. rewrite Hr. apply Hstep.
    + rewrite <- Hr. apply IH.
    + intros Hu. rewrite <- Hr. now apply no_transition_once_unlocked.
  - apply Hstep; [cbn; lia | reflexivity].
Qed.

Lemma unlock_loop_noop env ident ix w :
  (forall i, i ∈ ix -> id (ach_at (engine w) i) = ident -> unlocked (ach_at (engine w) i) <> 0) ->
  unlock_loop env ident ix w = Done tt w.
Proof.
  induction ix as [|i ix IH]; intros H; cbn [unlock_loop]; [reflexivity|].
  destruct (strcmp_eq (id (ach_at (engine w) i)) ident
            && (unlocked (ach_at (engine w) i) =? 0)) eqn:Hc.
  - apply andb_true_iff in Hc. destruct Hc as [Hid Hu].
    apply strcmp_eq_spec in Hid. apply Z.eqb_eq in Hu.
    exfalso. apply (H i); [left | exact Hid | exact Hu].
  - apply IH. intros j Hj. apply H. now right.
Qed.

End Evolution.

(** C1: a call (a turn of a thread, a tick of the evaluator or an unlock
    attempt, at time [now env]) leaves each entry of the catalog as it
    was, unless the entry was locked, in which case it may be marked:
    [unlocked] becomes 1 and [unlock_time] becomes [now env] in the same
    step.  Along every sequence of calls an entry goes from locked to
    unlocked at most once, so [unlock_time] is assigned at that
    transition only.  An unlock attempt for an identifier whose live
    entries are all unlocked returns at once in the very same world: no
    notification, no log line, no save. *)
Theorem unlock_happens_once :
  (forall env c w k,
      ach_at (engine (world_of (call_body env c w))) k = ach_at (engine w) k \/
      (unlocked (ach_at (engine w) k) = 0 /\
       ach_at (engine (world_of (call_body env c w))) k
       = mark_unlocked (now env) (ach_at (engine w) k))) /\
  (forall calls w k, (unlock_transitions k (run calls w) <= 1)%nat) /\
  (forall env ident w,
      all_unlocked ident (engine w) ->
      unlock_achievement env ident w = Done tt w).
Proof.
  split; [|split].
  - intros env c w k. destruct (call_body_evolves env c w) as (_ & _ & H).
    destruct (H k) as [Heq|(_ & Hu & Hm)]; auto.
  - intros calls w k. apply at_most_one_transition.
  - intros env ident w Hall. unfold unlock_achievement.
    apply unlock_loop_noop. intros i Hi. apply Hall.
    now apply elem_of_indices.
Qed.

Lemma unlock_happens_once_witness :
  all_unlocked (lit "wayland_pro") (engine world_wayland_unlocked) /\
  unlock_achievement (env_ok 9) (lit "wayland_pro") world_wayland_unlocked
  = Done tt world_wayland_unlocked.
Proof.
  assert (H : all_unlocked (lit "wayland_pro") (engine world_wayland_unlocked)).
  { intros i Hi. change (achievement_count (engine world_wayland_unlocked)) with 2 in Hi.
    assert (Hcase : i = 0 \/ i = 1) by lia.
    destruct Hcase as [-> | ->]; vm_compute; intros; discriminate. }
  split; [exact H|].
  exact (proj2 (proj2 unlock_happens_once) (env_ok 9) (lit "wayland_pro")
           world_wayland_unlocked H).
Defined.

(** ** The second loop of the evaluator *)

Lemma wayland_locked_evolves t w w' :
  wayland_locked w -> evolves (eq (lit "boot_master")) t w w' -> wayland_locked w'.
Proof.
  intros [Hw Hl] (Hc & Hw' & Hk). split; [congruence|].
  intros k Hr Hid. rewrite Hc in Hr.
  destruct (Hk k) as [Heq|(Hb & Hu & Hm)].
  - rewrite Heq in *. auto.
  - exfalso. rewrite Hm in Hid. cbn [id mark_unlocked] in Hid.
    rewrite <- Hb in Hid. vm_compute in Hid. discriminate Hid.
Qed.

Lemma wayland_loop_idle env ix w :
  wayland_locked w ->
  (forall i, i ∈ ix -> 0 <= i < achievement_count (engine w)) ->
  check_loop env (lit "wayland_pro") wayland_events ix w = Done tt w.
Proof.
  intros [Hw Hl]. induction ix as [|i ix IH]; intros Hix; [reflexivity|].
  cbn [check_loop]. unfold bind.
  destruct (strcmp_eq (id (ach_at (engine w) i)) (lit "wayland_pro")
            && (target (ach_at (engine w) i) <=? wayland_events w)
            && (unlocked (ach_at (engine w) i) =? 0)) eqn:Hc.
  - exfalso. apply andb_true_iff in Hc. destruct Hc as [Hc _].
    apply andb_true_iff in Hc. destruct Hc as [Hid Ht].
    apply strcmp_eq_spec in Hid. apply Z.leb_le in Ht.
    destruct (Hl i) as [Hpos _]; [apply Hix; left | exact Hid | lia].
  - apply IH. intros j Hj. apply Hix. now right.
Qed.

Lemma check_achievement_progress_wayland env w :
  wayland_locked w ->
  evolves (eq (lit "boot_master")) (now env) w (world_of (check_achievement_progress env w)).
Proof.
  intros Hwl. unfold check_achievement_progress, bind, modify. 
  set (w0 := set_boot_count (wrap32 (boot_count w + 1)) w).
  assert (H0 : evolves (eq (lit "boot_master")) (now env) w w0).
  { apply same_catalog_evolves. repeat split. }
  assert (H1 := check_loop_evolves env (lit "boot_master") boot_count
                  (indices (achievement_count (engine w0))) w0).
  destruct (check_loop env (lit "boot_master") boot_count
              (indices (achievement_count (engine w0))) w0) as [[] w1|w1|w1];
    cbn [world_of] in *; try exact (evolves_trans _ _ _ _ _ H0 H1).
  assert (Hwl1 : wayland_locked w1).
  { eapply wayland_locked_evolves; [exact Hwl|]. exact (evolves_trans _ _ _ _ _ H0 H1). }
  rewrite wayland_loop_idle; [|exact Hwl1|intros i Hi; now apply elem_of_indices].
  cbn [world_of]. exact (evolves_trans _ _ _ _ _ H0 H1).
Qed.

Lemma step_body_wayland env s w :
  wayland_locked w -> wayland_locked (world_of (step_body env s w)).
Proof.
  intros Hwl.
  pose (R := fun w w' : World =>
               wayland_locked w -> evolves (eq (lit "boot_master")) (now env) w w').
  assert (HR : preserves R (step_body env s)).
  { apply step_body_preserves.
    - intros w1 w2 w3 H12 H23 H1.
      eapply evolves_trans; [apply H12; exact H1|].
      apply H23. eapply wayland_locked_evolves; [exact H1 | apply H12; exact H1].
    - intros w1 w2 Hs _. now apply same_catalog_evolves.
    - intros w1 H1. now apply check_achievement_progress_wayland. }
  eapply wayland_locked_evolves; [exact Hwl | apply HR; exact Hwl].
Qed.

Lemma call_body_wayland env c w :
  is_unlock_attempt (env, c) = false ->
  wayland_locked w -> wayland_locked (world_of (call_body env c w)).
Proof.
  destruct c as [s| |ident]; cbn; intros Hc Hwl.
  - now apply step_body_wayland.
  - eapply wayland_locked_evolves; [exact Hwl|].
    now apply check_achievement_progress_wayland.
  - discriminate Hc.
Qed.

(** C10: as long as every live entry named [wayland_pro] is locked with
    a positive target and the counter [wayland_events] of the evaluator
    is 0, as in the world the threads start in with the default
    catalog, no turn of any thread and no tick of the evaluator changes
    that: the counter stays 0 (the listener advances its own
    [event_count]), the second loop of the evaluator never fires, and
    the entry stays locked in every world the engine goes through. *)
Theorem wayland_pro_never_unlocked (calls : list (Env * Call)) (w : World) :
  wayland_locked w ->
  existsb is_unlock_attempt calls = false ->
  Forall wayland_locked (run calls w).
Proof.
  revert w. induction calls as [|[env c] calls IH]; intros w Hwl Hno; cbn [run].
  - constructor; [exact Hwl | constructor].
  - cbn [existsb] in Hno. apply orb_false_iff in Hno. destruct Hno as [Hc Hno].
    constructor; [exact Hwl|].
    assert (Hnext := call_body_wayland env c w Hc Hwl).
    destruct (call_body env c w) as [[] w'|w'|w']; cbn [world_of] in Hnext.
    + now apply IH.
    + now apply IH.
    + constructor; [exact Hnext | constructor].
Qed.

Lemma wayland_pro_never_unlocked_witness :
  wayland_locked world_seeded /\
  target (ach_at (engine world_seeded) 1) = 500 /\
  Forall wayland_locked
    (run (replicate 12 (env_ok 2000, Turn AchievementMonitor)
          ++ [(env_ok 2001, Turn (WaylandListener 50)); (env_ok 2002, Tick)])
       world_seeded).
Proof.
  assert (H : wayland_locked world_seeded).
  { split; [reflexivity|].
    intros k Hk. change (achievement_count (engine world_seeded)) with 2 in Hk.
    assert (Hcase : k = 0 \/ k = 1) by lia.
    destruct Hcase as [-> | ->]; vm_compute; intros Hid; [discriminate Hid|].
    split; reflexivity. }
  split; [exact H|]. split; [reflexivity|].
  apply wayland_pro_never_unlocked; [exact H | reflexivity].
Defined.

(** ** The effects of an unlock *)

Lemma indices_split n i :
  0 <= i < n ->
  indices n = indices i ++ i :: map Z.of_nat (seq (S (Z.to_nat i)) (Z.to_nat n - S (Z.to_nat i))).
Proof.
  intros Hi. unfold indices.
  replace (Z.to_nat n) with (Z.to_nat i + S (Z.to_nat n - S (Z.to_nat i)))%nat at 1 by lia.
  rewrite seq_app, map_app. cbn [seq map]. rewrite Nat.add_0_l.
  f_equal. f_equal. lia.
Qed.

Lemma unlock_loop_skip env ident pre post w :
  (forall j, j ∈ pre -> id (ach_at (engine w) j) = ident -> unlocked (ach_at (engine w) j) <> 0) ->
  unlock_loop env ident (pre ++ post) w = unlock_loop env ident post w.
Proof.
  induction pre as [|j pre IH]; intros H; [reflexivity|].
  cbn [app unlock_loop].
  destruct (strcmp_eq (id (ach_at (engine w) j)) ident
            && (unlocked (ach_at (engine w) j) =? 0)) eqn:Hc.
  - apply andb_true_iff in Hc. destruct Hc as [Hid Hu].
    apply strcmp_eq_spec in Hid. apply Z.eqb_eq in Hu.
    exfalso. apply (H j); [left | exact Hid | exact Hu].
  - apply IH. intros k Hk. apply H. now right.
Qed.



Lemma bind_done {A B} (m : M A) (k : A -> M B) w a w' :
  m w = Done a w' -> bind m k w = k a w'.
Proof. intros H. unfold bind. now rewrite H. Qed.

Lemma bind_blocked {A B} (m : M A) (k : A -> M B) w w' :
  m w = Blocked w' -> bind m k w = Blocked w'.
Proof. intros H. unfold bind. now rewrite H. Qed.

Lemma check_loop_idle env ident counter pre post w :
  (forall j, j ∈ pre ->
     ~ (id (ach_at (engine w) j) = ident /\ target (ach_at (engine w) j) <= counter w
        /\ unlocked (ach_at (engine w) j) = 0)) ->
  check_loop env ident counter (pre ++ post) w = check_loop env ident counter post w.
Proof.
  induction pre as [|j pre IH]; intros H; [reflexivity|].
  cbn [app check_loop]. unfold bind at 1.
  destruct (strcmp_eq (id (ach_at (engine w) j)) ident
            && (target (ach_at (engine w) j) <=? counter w)
            && (unlocked (ach_at (engine w) j) =? 0)) eqn:Hc.
  - exfalso. apply andb_true_iff in Hc. destruct Hc as [Hc Hu].
    apply andb_true_iff in Hc. destruct Hc as [Hid Ht].
    apply strcmp_eq_spec in Hid. apply Z.leb_le in Ht. apply Z.eqb_eq in Hu.
    apply (H j); [left | auto].
  - apply IH. intros k Hk. apply H. now right.
Qed.

Lemma save_engine_data_blocks env w :
  data_mutex (engine w) = true ->
  save_engine_data env w = Blocked (count_save_call w).
Proof.
  intros Hm. unfold save_engine_data, bind, modify, pthread_mutex_lock.
  cbn [engine count_save_call]. now rewrite Hm.
Qed.



Lemma check_loop_none_due env ident counter w :
  none_due ident (counter w) (engine w) ->
  check_loop env ident counter (indices (achievement_count (engine w))) w = Done tt w.
Proof.
  intros H.
  rewrite <- (app_nil_r (indices _)). rewrite check_loop_idle; [reflexivity|].
  intros j Hj. apply elem_of_indices in Hj. now apply H.
Qed.





(** ** The dispatcher *)

(** C9, as the code has it.  When the dispatcher finds a notification
    at the head of the queue and the consumer cannot be reached, the turn
    returns with [notification_count] one lower and the head one further;
    the array and the tail are untouched (nothing is put back), nothing
    is written to the socket (no second attempt), the failure is
    reported by one line on the standard error stream (a second one if
    the random notification of the same turn is attempted), nothing is
    appended to the log of the engine, and [enabled] is as before, so the
    loop goes on. *)
Theorem dispatch_failure_drops (env : Env) (r1 r2 : Z) (w : World) (n : Notification) :
  consumer_up env = false ->
  data_mutex (engine w) = false ->
  enabled (engine w) <> 0 ->
  queue_front (engine w) = Some n ->
  exists w',
    step_body env (NotificationDispatcher r1 r2) w = Done tt w' /\
    notification_count (engine w') = notification_count (engine w) - 1 /\
    notification_head (engine w') = Z.rem (notification_head (engine w) + 1) MAX_NOTIFICATIONS /\
    notification_tail (engine w') = notification_tail (engine w) /\
    notification_queue (engine w') = notification_queue (engine w) /\
    sock_out w' = sock_out w /\
    stderr_out w' = stderr_out w ++ connect_failure ::
                      (if Z.rem r1 100 <? 5 then [connect_failure] else []) /\
    engine_log w' = engine_log w /\
    enabled (engine w') = enabled (engine w) /\
    data_mutex (engine w') = false.
Proof.
  intros Hc Hm Hen Hq.
  unfold step_body, while_enabled.
  apply Z.eqb_neq in Hen. rewrite Hen.
  unfold notification_dispatcher_body, generate_random_notification, send_notification,
    pthread_mutex_lock, pthread_mutex_unlock, modify_engine, modify, bind, ret.
  rewrite Hm, Hc. cbn [engine set_engine]. 
  change (queue_front (set_data_mutex true (engine w))) with (queue_front (engine w)).
  rewrite Hq.
  destruct (Z.rem r1 100 <? 5); eexists; (split; [reflexivity|]); cbn;
    rewrite <- ?app_assoc; repeat split; reflexivity.
Qed.

Lemma dispatch_failure_drops_witness :
  exists w',
    step_body (env_no_consumer 3000) (NotificationDispatcher 50 0) world_one_queued = Done tt w' /\
    notification_count (engine w') = 1 - 1 /\
    engine_log w' = engine_log world_one_queued.
Proof.
  destruct (dispatch_failure_drops (env_no_consumer 3000) 50 0 world_one_queued (numbered 1))
    as (w' & H1 & H2 & _ & _ & _ & _ & _ & H3 & _).
  - reflexivity.
  - reflexivity.
  - vm_compute. discriminate.
  - reflexivity.
  - exists w'. repeat split; [exact H1 | exact H2 | exact H3].
Defined.

(** C9 fails as stated: the dispatcher pops the one queued notification,
    cannot reach the consumer, and the log of the engine has no new
    line; the message is on the standard error stream. *)
Lemma dispatch_failure_counterexample :
  queue_front (engine world_one_queued) = Some (numbered 1) /\
  engine_log (world_of (step_body (env_no_consumer 3000) (NotificationDispatcher 50 0)
                          world_one_queued))
  = engine_log world_one_queued /\
  stderr_out (world_of (step_body (env_no_consumer 3000) (NotificationDispatcher 50 0)
                          world_one_queued))
  = stderr_out world_one_queued ++ [connect_failure] /\
  ~ (exists line,
        engine_log (world_of (step_body (env_no_consumer 3000) (NotificationDispatcher 50 0)
                                world_one_queued))
        = engine_log world_one_queued ++ [line]).
Proof.
  vm_compute. repeat split; try reflexivity.
  intros [line H]. discriminate H.
Qed.

(** ** Loading the store *)

Lemma load_engine_data_nothing env w :
  store_readable env = false \/ store w = None \/ store w = Some [] ->
  load_engine_data env w = Done (-1) w.
Proof.
  unfold load_engine_data, bind, get.
  destruct (store_readable env); intros [H|[H|H]]; try discriminate H;
    try reflexivity; rewrite H; reflexivity.
Qed.

(** C2 on the code: when the data file is absent, unreadable or empty,
    [load_engine_data] returns -1 before it reaches the block that seeds
    the defaults, and the world is as before; startup goes on with a
    catalog of no entries.  The defaults are seeded only when the file
    has content and no record line, as with the header alone. *)
Theorem load_without_store_seeds_nothing :
  (forall env w,
      store_readable env = false \/ store w = None \/ store w = Some [] ->
      load_engine_data env w = Done (-1) w) /\
  returned startup_missing = true /\
  achievement_count (engine (world_of startup_missing)) = 0 /\
  store (world_of startup_missing) = None /\
  returned startup_empty = true /\
  achievement_count (engine (world_of startup_empty)) = 0 /\
  store (world_of startup_empty) = Some [] /\
  catalog (engine (world_of startup_empty)) = [] /\
  catalog (engine (world_of startup_header_only)) = default_catalog.
Proof.
  split; [exact load_engine_data_nothing|].
  vm_compute. repeat split; reflexivity.
Qed.

(** ** Printing and scanning integers *)

Section Integers.

Lemma digit_char_spec d :
  0 <= d < 10 ->
  is_digit (digit_char d) = true /\ digit_val (digit_char d) = d /\
  is_space (digit_char d) = false /\
  digit_char d <> NL /\ digit_char d <> NUL /\ digit_char d <> BAR /\
  digit_char d <> "-"%char /\ digit_char d <> "+"%char.
Proof.
  intros Hd.
  assert (H : d = 0 \/ d = 1 \/ d = 2 \/ d = 3 \/ d = 4 \/ d = 5 \/ d = 6 \/ d = 7
              \/ d = 8 \/ d = 9) by lia.
  repeat (destruct H as [->|H]); try subst d; vm_compute; repeat split; discriminate.
Qed.

Lemma dec_digits_app fuel : forall n acc, dec_digits fuel n acc = dec_digits fuel n [] ++ acc.
Proof.
  induction fuel as [|f IH]; intros n acc; cbn [dec_digits]; [reflexivity|].
  destruct (n <? 10); [reflexivity|].
  rewrite (IH _ (_ :: acc)), (IH _ [_]). now rewrite <- app_assoc.
Qed.

Lemma scan_dec_digits fuel :
  forall n acc a,
    0 <= n < 10 ^ (Z.of_nat fuel + 1) ->
    exists k, 0 <= k /\
      scan_digits (dec_digits fuel n acc) a = scan_digits acc (a * 10 ^ k + n).
Proof.
  assert (Hone : forall n acc a, 0 <= n < 10 ->
            scan_digits (digit_char (n mod 10) :: acc) a = scan_digits acc (a * 10 ^ 1 + n)).
  { intros n acc a Hn. rewrite Z.mod_small by lia.
    destruct (digit_char_spec n Hn) as (Hd & Hv & _).
    cbn [scan_digits]. rewrite Hd, Hv. f_equal. lia. }
  induction fuel as [|f IH]; intros n acc a Hn; cbn [dec_digits].
  - exists 1. split; [lia|]. apply Hone. cbn in Hn. lia.
  - destruct (n <? 10) eqn:Hlt.
    + exists 1. split; [lia|]. apply Hone. apply Z.ltb_lt in Hlt. lia.
    + apply Z.ltb_ge in Hlt.
      assert (Hdiv : 0 <= n / 10 < 10 ^ (Z.of_nat f + 1)).
      { split; [apply Z.div_pos; lia|].
        apply Z.div_lt_upper_bound; [lia|].
        replace (Z.of_nat (S f) + 1) with (Z.succ (Z.of_nat f + 1)) in Hn by lia.
        rewrite Z.pow_succ_r in Hn by lia. lia. }
      destruct (IH (n / 10) (digit_char (n mod 10) :: acc) a Hdiv) as (k & Hk & Heq).
      exists (k + 1). split; [lia|]. rewrite Heq.
      assert (Hm : 0 <= n mod 10 < 10) by (apply Z.mod_pos_bound; lia).
      destruct (digit_char_spec (n mod 10) Hm) as (Hd & Hv & _).
      cbn [scan_digits]. rewrite Hd, Hv. f_equal.
      rewrite Z.pow_add_r by lia. rewrite Z.pow_1_r.
      pose proof (Z.div_mod n 10 ltac:(lia)). lia.
Qed.

Lemma log2_fuel n : 0 <= n -> n < 10 ^ (Z.of_nat (Z.to_nat (Z.log2 n)) + 1).
Proof.
  intros Hn. rewrite Z2Nat.id by apply Z.log2_nonneg.
  destruct (Z.eq_dec n 0) as [->|Hne]; [cbn; lia|].
  destruct (Z.log2_spec n ltac:(lia)) as [_ Hlt].
  eapply Z.lt_le_trans; [exact Hlt|].
  replace (Z.succ (Z.log2 n)) with (Z.log2 n + 1) by lia.
  apply Z.pow_le_mono_l. lia.
Qed.

Lemma scan_digits_stop rest a : ends_number rest -> scan_digits rest a = (a, rest).
Proof. destruct rest as [|c rest]; cbn; [auto|]. now intros ->. Qed.

Lemma dec_digits_head fuel n acc :
  0 <= n -> exists d ds, 0 <= d < 10 /\ dec_digits fuel n acc = digit_char d :: ds.
Proof.
  revert n acc. induction fuel as [|f IH]; intros n acc Hn; cbn [dec_digits].
  - exists (n mod 10), acc. split; [apply Z.mod_pos_bound; lia | reflexivity].
  - destruct (n <? 10).
    + exists (n mod 10), acc. split; [apply Z.mod_pos_bound; lia | reflexivity].
    + apply IH. apply Z.div_pos; lia.
Qed.

Lemma dec_digits_chars fuel n acc (P : ascii -> Prop) :
  (forall d, 0 <= d < 10 -> P (digit_char d)) ->
  Forall P acc -> Forall P (dec_digits fuel n acc).
Proof.
  intros HP. revert n acc. induction fuel as [|f IH]; intros n acc Hacc; cbn [dec_digits].
  - constructor; [apply HP, Z.mod_pos_bound; lia | exact Hacc].
  - destruct (n <? 10).
    + constructor; [apply HP, Z.mod_pos_bound; lia | exact Hacc].
    + apply IH. constructor; [apply HP, Z.mod_pos_bound; lia | exact Hacc].
Qed.

Lemma scan_unsigned n rest :
  0 <= n -> ends_number rest ->
  exists d ds, 0 <= d < 10 /\
    dec_digits (Z.to_nat (Z.log2 n)) n [] ++ rest = digit_char d :: ds /\
    scan_digits (digit_char d :: ds) 0 = (n, rest).
Proof.
  intros Hn Hrest.
  destruct (dec_digits_head (Z.to_nat (Z.log2 n)) n rest Hn) as (d & ds & Hd & Heq).
  exists d, ds. split; [exact Hd|].
  rewrite <- dec_digits_app, Heq. split; [reflexivity|].
  rewrite <- Heq.
  destruct (scan_dec_digits _ n rest 0 (conj Hn (log2_fuel n Hn))) as (k & _ & Hs).
  rewrite Hs. cbn [Z.mul]. rewrite Z.add_0_l. now apply scan_digits_stop.
Qed.

Lemma scan_long_print z rest :
  LONG_MIN <= z <= LONG_MAX -> ends_number rest ->
  scan_long (print_int z ++ rest) = Some (z, rest).
Proof.
  intros Hz Hrest. unfold print_int, scan_long.
  destruct (z <? 0) eqn:Hneg.
  - apply Z.ltb_lt in Hneg.
    destruct (scan_unsigned (- z) rest ltac:(lia) Hrest) as (d & ds & Hd & Heq & Hs).
    cbn [app skip_spaces]. change (is_space "-"%char) with false. cbn iota.
    change (ascii_eqb "-"%char "-"%char) with true. cbn iota.
    rewrite Heq.
    destruct (digit_char_spec d Hd) as (Hdig & _).
    rewrite Hdig, Hs. f_equal. f_equal. unfold clamp. lia.
  - apply Z.ltb_ge in Hneg.
    destruct (scan_unsigned z rest Hneg Hrest) as (d & ds & Hd & Heq & Hs).
    rewrite Heq.
    destruct (digit_char_spec d Hd) as (Hdig & _ & Hsp & _ & _ & _ & Hminus & Hplus).
    cbn [skip_spaces]. rewrite Hsp.
    assert (Hm : ascii_eqb (digit_char d) "-"%char = false)
      by (unfold ascii_eqb; now apply Ascii.eqb_neq).
    assert (Hp : ascii_eqb (digit_char d) "+"%char = false)
      by (unfold ascii_eqb; now apply Ascii.eqb_neq).
    rewrite Hm, Hp, Hdig, Hs. f_equal. f_equal. unfold clamp. lia.
Qed.

Lemma wrap32_small z : INT_MIN <= z <= INT_MAX -> wrap32 z = z.
Proof.
  unfold wrap32, wrap, INT_MIN, INT_MAX. intros Hz.
  change (2 ^ 32) with 4294967296. change (2 ^ (32 - 1)) with 2147483648.
  change (2 ^ 31) with 2147483648 in Hz.
  destruct (Z_lt_dec z 0) as [Hneg|Hpos].
  - assert (Hm : z mod 4294967296 = z + 4294967296).
    { symmetry. apply (Z.mod_unique _ _ (-1)); lia. }
    rewrite Hm.
    destruct (z + 4294967296 <? 2147483648) eqn:Hlt; [apply Z.ltb_lt in Hlt; lia | lia].
  - rewrite Z.mod_small by lia.
    destruct (z <? 2147483648) eqn:Hlt; [reflexivity | apply Z.ltb_ge in Hlt; lia].
Qed.

Lemma scan_int_print z rest :
  INT_MIN <= z <= INT_MAX -> ends_number rest ->
  scan_int (print_int z ++ rest) = Some (z, rest).
Proof.
  intros Hz Hrest. unfold scan_int.
  rewrite scan_long_print; [|unfold LONG_MIN, LONG_MAX, INT_MIN, INT_MAX in *; lia|exact Hrest].
  now rewrite wrap32_small.
Qed.

Lemma print_int_chars z (P : ascii -> Prop) :
  (forall d, 0 <= d < 10 -> P (digit_char d)) -> P "-"%char ->
  Forall P (print_int z).
Proof.
  intros HP Hm. unfold print_int. destruct (z <? 0).
  - constructor; [exact Hm|]. apply dec_digits_chars; auto.
  - apply dec_digits_chars; auto.
Qed.

End Integers.

(** ** Scanning a record line *)

Section Records.

Lemma ascii_eqb_neq a b : a <> b -> ascii_eqb a b = false.
Proof. intros H. unfold ascii_eqb. now apply Ascii.eqb_neq. Qed.

Lemma ascii_eqb_refl a : ascii_eqb a a = true.
Proof. unfold ascii_eqb. apply Ascii.eqb_refl. Qed.

Lemma scan_until_bar_field width f rest :
  (length f <= width)%nat ->
  Forall (fun c => c <> BAR /\ c <> NL /\ c <> NUL) f ->
  scan_until_bar width (f ++ BAR :: rest) = (f, BAR :: rest).
Proof.
  revert width. induction f as [|c f IH]; intros width Hlen Hf.
  - destruct width; cbn; [reflexivity|]. now rewrite ascii_eqb_refl.
  - destruct width as [|w]; [cbn in Hlen; lia|].
    inversion Hf as [|? ? [Hc _] Hf']; subst.
    cbn [app scan_until_bar]. rewrite (ascii_eqb_neq _ _ Hc).
    rewrite IH; [reflexivity | cbn in Hlen; lia | exact Hf'].
Qed.

Lemma scan_field_text width f rest :
  text_ok width f ->
  scan_field width (f ++ BAR :: rest) = Some (f, BAR :: rest).
Proof.
  intros (Hne & Hlen & Hf). unfold scan_field.
  rewrite scan_until_bar_field by assumption.
  destruct f; [contradiction | reflexivity].
Qed.

Lemma scan_bar_bar rest : scan_bar (BAR :: rest) = Some rest.
Proof. reflexivity. Qed.

Lemma ends_number_bar rest : ends_number (BAR :: rest).
Proof. reflexivity. Qed.

(** Scanning the line written for a storable entry assigns every field
    of the slot. *)
Lemma sscanf_record_line a slot :
  storable a ->
  sscanf_achievement (drop 4 (record_line a)) slot = a.
Proof.
  intros (Hid & Hname & Hdesc & Hp & Ht & Hu & Htime).
  unfold record_line. change (drop 4 (lit "ACH:" ++ ?x)) with x.
  unfold sscanf_achievement. cbn [app].
  rewrite (scan_field_text 31 _ _ Hid), scan_bar_bar.
  rewrite (scan_field_text 63 _ _ Hname), scan_bar_bar.
  rewrite (scan_field_text 127 _ _ Hdesc), scan_bar_bar.
  rewrite (scan_int_print _ _ Hp (ends_number_bar _)), scan_bar_bar.
  rewrite (scan_int_print _ _ Ht (ends_number_bar _)), scan_bar_bar.
  rewrite (scan_int_print _ _ Hu (ends_number_bar _)), scan_bar_bar.
  rewrite <- (app_nil_r (print_int (unlock_time a))).
  rewrite (scan_long_print _ [] Htime I).
  destruct a; reflexivity.
Qed.

Lemma has_prefix_record_line a : has_prefix (lit "ACH:") (record_line a) = true.
Proof. reflexivity. Qed.

Lemma print_int_line z : Forall (fun c => c <> NL /\ c <> NUL) (print_int z).
Proof.
  apply print_int_chars.
  - intros d Hd. destruct (digit_char_spec d Hd) as (_ & _ & _ & H1 & H2 & _). auto.
  - split; discriminate.
Qed.

Lemma record_line_ok a : storable a -> line_ok (record_line a).
Proof.
  intros ((_ & _ & Hid) & (_ & _ & Hname) & (_ & _ & Hdesc) & _).
  assert (Hw : forall f, Forall (fun c => c <> BAR /\ c <> NL /\ c <> NUL) f ->
                 Forall (fun c => c <> NL /\ c <> NUL) f).
  { intros f Hf. eapply Forall_impl; [exact Hf|]. cbn. tauto. }
  assert (Hbar : Forall (fun c => c <> NL /\ c <> NUL) [BAR])
    by (constructor; [split; discriminate | constructor]).
  split; [discriminate|].
  unfold record_line.
  repeat (apply Forall_app; split);
    auto using print_int_line.
  repeat constructor; discriminate.
Qed.

Lemma format_achievement_line a : format_achievement a = record_line a ++ [NL].
Proof.
  unfold format_achievement, record_line. now rewrite <- !app_assoc.
Qed.

End Records.

(** ** Lines and tokens *)

Section Lines.

Lemma strtok_lines_aux_line l :
  forall cur rest,
    Forall (fun c => c <> NL /\ c <> NUL) l ->
    rev cur ++ l <> [] ->
    strtok_lines_aux cur (l ++ NL :: rest) = (rev cur ++ l) :: strtok_lines_aux [] rest.
Proof.
  induction l as [|c l IH]; intros cur rest Hl Hne.
  - cbn [app strtok_lines_aux]. rewrite ascii_eqb_refl.
    rewrite app_nil_r in *. destruct cur; [contradiction | reflexivity].
  - inversion Hl as [|? ? [Hc _] Hl']; subst.
    cbn [app strtok_lines_aux]. rewrite (ascii_eqb_neq _ _ Hc).
    rewrite IH; [|exact Hl'|cbn [rev]; rewrite <- app_assoc; cbn; now destruct (rev cur)].
    cbn [rev]. now rewrite <- app_assoc.
Qed.

Lemma strtok_join_lines ls :
  Forall line_ok ls -> strtok_lines (join_lines ls) = ls.
Proof.
  unfold strtok_lines, join_lines.
  induction ls as [|l ls IH]; intros Hls; [reflexivity|].
  inversion Hls as [|? ? [Hne Hl] Hls']; subst.
  cbn [map concat]. rewrite <- app_assoc. cbn [app].
  rewrite strtok_lines_aux_line; [|exact Hl|exact Hne].
  cbn [rev app]. f_equal. now apply IH.
Qed.

Lemma c_string_id s : Forall (fun c => c <> NUL) s -> c_string s = s.
Proof.
  induction s as [|c s IH]; intros Hs; [reflexivity|].
  inversion Hs; subst. cbn [c_string].
  rewrite ascii_eqb_neq by assumption. f_equal. now apply IH.
Qed.

Lemma join_lines_no_nul ls :
  Forall line_ok ls -> Forall (fun c => c <> NUL) (join_lines ls).
Proof.
  unfold join_lines. induction ls as [|l ls IH]; intros Hls; [constructor|].
  inversion Hls as [|? ? [_ Hl] Hls']; subst.
  cbn [map concat]. rewrite <- app_assoc.
  apply Forall_app; split.
  - eapply Forall_impl; [exact Hl|]. cbn. tauto.
  - constructor; [discriminate | now apply IH].
Qed.

Lemma tokens_of_join_lines ls :
  Forall line_ok ls -> strtok_lines (c_string (join_lines ls)) = ls.
Proof.
  intros Hls. rewrite c_string_id by now apply join_lines_no_nul.
  now apply strtok_join_lines.
Qed.




Lemma load_engine_data_reads env w content :
  store_readable env = true ->
  store w = Some content ->
  content <> [] ->
  (length content <= 4095)%nat ->
  load_engine_data env w = Done 0 (set_engine (load_from_buffer content (engine w)) w).
Proof.
  intros Hr Hs Hne Hlen.
  unfold load_engine_data, bind, get. rewrite Hr, Hs.
  change (Z.to_nat (DATA_BUFFER_SIZE - 1)) with 4095%nat.
  rewrite take_ge by exact Hlen.
  destruct content as [|c content]; [contradiction|]. reflexivity.
Qed.

End Lines.

(** ** Saving and loading *)

Section RoundTrip.

Lemma parse_record_lines l :
  forall e,
    Forall storable l ->
    0 <= achievement_count e ->
    achievement_count e + Z.of_nat (length l) <= MAX_ACHIEVEMENTS ->
    (Z.to_nat (achievement_count e) + length l <= length (achievements e))%nat ->
    achievement_count (parse_lines (map record_line l) e)
    = achievement_count e + Z.of_nat (length l) /\
    catalog (parse_lines (map record_line l) e) = catalog e ++ l.
Proof.
  unfold catalog.
  induction l as [|a l IH]; intros e Hl H0 Hcap Hlen; cbn [map parse_lines length] in *.
  - rewrite Z.add_0_r, app_nil_r. auto.
  - inversion Hl as [|? ? Ha Hl']; subst.
    assert (Hc : (achievement_count e <? MAX_ACHIEVEMENTS) = true)
      by (apply Z.ltb_lt; lia).
    rewrite Hc, has_prefix_record_line. cbv zeta.
    rewrite (sscanf_record_line a _ Ha).
    set (e1 := set_achievement_count (achievement_count e + 1)
                 (set_ach_at (achievement_count e) a e)).
    assert (Hlen1 : length (achievements e1) = length (achievements e)).
    { unfold e1; cbn. apply length_insert. }
    destruct (IH e1 Hl') as [Hcount Hcat].
    + unfold e1; cbn. lia.
    + unfold e1; cbn [achievement_count set_achievement_count]. lia.
    + rewrite Hlen1. unfold e1; cbn [achievement_count set_achievement_count]. lia.
    + split.
      * rewrite Hcount. unfold e1; cbn [achievement_count set_achievement_count]. lia.
      * rewrite Hcat. unfold e1; cbn [achievement_count set_achievement_count achievements
                                       set_ach_at set_achievements].
        replace (Z.to_nat (achievement_count e + 1))
          with (S (Z.to_nat (achievement_count e))) by lia.
        rewrite (take_S_r _ _ a).
        -- rewrite take_insert_ge by lia. now rewrite <- app_assoc.
        -- apply list_lookup_insert_eq. lia.
Qed.

Lemma header_not_record : has_prefix (lit "ACH:") (lit "SWEETENGINE_DATA_v1") = false.
Proof. reflexivity. Qed.

Lemma header_line_ok : line_ok (lit "SWEETENGINE_DATA_v1").
Proof. split; [discriminate|]. repeat constructor; discriminate. Qed.

Lemma store_text_lines l :
  store_text l = join_lines (lit "SWEETENGINE_DATA_v1" :: map record_line l).
Proof.
  unfold store_text, join_lines, store_header. cbn [map concat]. f_equal.
  induction l as [|a l IH]; [reflexivity|].
  cbn [map concat]. now rewrite format_achievement_line, IH.
Qed.

(** Loading the text saved for a catalog of storable entries gives the
    catalog back, whatever the slots held. *)
Lemma load_store_text l e :
  l <> [] ->
  Forall storable l ->
  (length l <= Z.to_nat MAX_ACHIEVEMENTS)%nat ->
  (Z.to_nat MAX_ACHIEVEMENTS <= length (achievements e))%nat ->
  catalog (load_from_buffer (store_text l) e) = l.
Proof.
  intros Hne Hl Hcap Hlen. unfold load_from_buffer.
  rewrite store_text_lines.
  rewrite tokens_of_join_lines.
  2:{ constructor; [exact header_line_ok|].
      apply Forall_fmap. eapply Forall_impl; [exact Hl|]. exact record_line_ok. }
  cbn [parse_lines]. change (achievement_count (set_achievement_count 0 e)) with 0.
  change (0 <? MAX_ACHIEVEMENTS) with true. rewrite header_not_record. cbv iota.
  destruct (parse_record_lines l (set_achievement_count 0 e) Hl) as [Hcount Hcat].
  - cbn. lia.
  - unfold MAX_ACHIEVEMENTS in *. cbn [achievement_count set_achievement_count]. lia.
  - unfold MAX_ACHIEVEMENTS in *. cbn. lia.
  - cbn [achievement_count set_achievement_count] in Hcount.
    assert (Hnz : (achievement_count (parse_lines (map record_line l) (set_achievement_count 0 e))
                   =? 0) = false).
    { apply Z.eqb_neq. rewrite Hcount. destruct l; [contradiction|]. cbn [length]. lia. }
    rewrite Hnz, Hcat. reflexivity.
Qed.

Lemma buffer_records_fit l :
  forall text,
    (length text + length (concat (map format_achievement l)) <= 4095)%nat ->
    buffer_records l (text, Z.of_nat (length text))
    = Some (text ++ concat (map format_achievement l),
            Z.of_nat (length (text ++ concat (map format_achievement l)))).
Proof.
  induction l as [|a l IH]; intros text Hfit; cbn [map concat buffer_records] in *.
  - now rewrite app_nil_r.
  - rewrite length_app in Hfit.
    unfold buffer_snprintf, snprintf_trunc, DATA_BUFFER_SIZE.
    assert (Hw : (4096 <? Z.of_nat (length text)) = false) by (apply Z.ltb_ge; lia).
    rewrite Hw. rewrite take_ge by lia.
    replace (Z.of_nat (length text) + Z.of_nat (length (format_achievement a)))
      with (Z.of_nat (length (text ++ format_achievement a)))
      by (rewrite length_app; lia).
    rewrite IH by (rewrite length_app; lia).
    now rewrite <- app_assoc.
Qed.

Lemma serialize_fits e :
  (length (store_text (catalog e)) <= 4095)%nat ->
  serialize e = Some (store_text (catalog e)).
Proof.
  unfold store_text, catalog, serialize. intros Hfit.
  rewrite length_app in Hfit.
  change (buffer_snprintf store_header ([], 0))
    with (Some (store_header, Z.of_nat (length store_header))).
  cbv iota beta.
  rewrite buffer_records_fit by exact Hfit.
  unfold buffer_bytes. rewrite Z.leb_refl. reflexivity.
Qed.

Lemma save_engine_data_writes env w :
  data_mutex (engine w) = false ->
  store_writable env = true ->
  (length (store_text (catalog (engine w))) <= 4095)%nat ->
  save_engine_data env w
  = Done 0 (set_store (Some (store_text (catalog (engine w)))) (count_save_call w)).
Proof.
  intros Hm Hw Hfit.
  unfold save_engine_data, pthread_mutex_lock, pthread_mutex_unlock, modify_engine,
    modify, bind, get, ret.
  cbn [engine count_save_call]. rewrite Hm, Hw.
  cbn [engine set_engine].
  change (serialize (set_data_mutex true (engine w))) with (serialize (engine w)).
  rewrite (serialize_fits _ Hfit).
  destruct w as [e ? ? ? ? ? ? ? ? ?]; destruct e; cbn in *. subst. reflexivity.
Qed.

End RoundTrip.


Lemma default_catalog_storable : Forall storable default_catalog.
Proof.
  assert (Hint : INT_MIN <= 0 <= INT_MAX /\ INT_MIN <= 10 <= INT_MAX
                 /\ INT_MIN <= 500 <= INT_MAX /\ LONG_MIN <= 0 <= LONG_MAX)
    by (unfold INT_MIN, INT_MAX, LONG_MIN, LONG_MAX; lia).
  destruct Hint as (H0 & H10 & H500 & HL).
  repeat constructor; try exact H0; try exact H10; try exact H500; try exact HL;
    try discriminate; cbn; lia.
Qed.







(** * Further properties of the program *)

(** ** The configuration file *)

Section Config.

Lemma has_prefix_spec p s : has_prefix p s = true <-> exists post, s = p ++ post.
Proof.
  revert s. induction p as [|x p IH]; intros s; cbn [has_prefix].
  - split; [intros _; exists s; reflexivity | auto].
  - destruct s as [|y s].
    + split; [discriminate | intros [post H]; discriminate H].
    + rewrite andb_true_iff, IH. unfold ascii_eqb. rewrite Ascii.eqb_eq. split.
      * intros [-> [post ->]]. exists post. reflexivity.
      * intros [post H]. cbn in H. injection H as -> ->. eauto.
Qed.

Lemma strstr_found_spec p s : strstr_found p s = true <-> contains p s.
Proof.
  unfold contains. induction s as [|c s IH]; cbn [strstr_found].
  - rewrite orb_false_r, has_prefix_spec. split.
    + intros [post H]. exists [], post. exact H.
    + intros (pre & post & H). destruct pre; [eauto|discriminate H].
  - rewrite orb_true_iff, has_prefix_spec, IH. split.
    + intros [[post H]|(pre & post & H)].
      * exists [], post. exact H.
      * exists (c :: pre), post. now rewrite H.
    + intros (pre & post & H). destruct pre as [|x pre].
      * left. eauto.
      * right. cbn in H. injection H as _ H. eauto.
Qed.

Lemma contains_key_newline l :
  contains CONFIG_KEY (l ++ [NL]) <-> contains CONFIG_KEY l.
Proof.
  split.
  - intros (pre & post & H).
    induction post as [|x post' _] using rev_ind.
    + exfalso. rewrite app_nil_r in H.
      change CONFIG_KEY with (lit "SWEETENGINE=tru" ++ ["e"%char]) in H.
      rewrite app_assoc in H. apply app_inj_tail in H. destruct H as [_ H].
      discriminate H.
    + rewrite !app_assoc in H. apply app_inj_tail in H. destruct H as [H _].
      exists pre, post'. now rewrite H, app_assoc.
  - intros (pre & post & ->). exists pre, (post ++ [NL]).
    now rewrite <- !app_assoc.
Qed.

Lemma fgets_line n l rest :
  (length l < n)%nat ->
  Forall (fun c => c <> NL /\ c <> NUL) l ->
  fgets n (l ++ NL :: rest) = (l ++ [NL], rest).
Proof.
  revert n. induction l as [|c l IH]; intros n Hlen Hl.
  - destruct n; [cbn in Hlen; lia|]. cbn. now rewrite ascii_eqb_refl.
  - destruct n as [|n]; [cbn in Hlen; lia|].
    inversion Hl as [|? ? [Hc _] Hl']; subst.
    cbn [app fgets]. rewrite (ascii_eqb_neq _ _ Hc).
    rewrite IH; [reflexivity | cbn in Hlen; lia | exact Hl'].
Qed.

Lemma config_scan_lines ls :
  Forall config_line_ok ls ->
  forall fuel,
    (length (join_lines ls) <= fuel)%nat ->
    config_scan fuel (join_lines ls)
    = existsb (fun l => strstr_found CONFIG_KEY (l ++ [NL])) ls.
Proof.
  unfold join_lines.
  induction ls as [|l ls IH]; intros Hls fuel Hfuel; cbn [map concat existsb].
  - destruct fuel; reflexivity.
  - inversion Hls as [|? ? [Hlen Hl] Hls']; subst.
    cbn [map concat] in Hfuel. rewrite <- app_assoc in *. cbn [app] in *.
    rewrite length_app in Hfuel. cbn [length] in Hfuel.
    destruct fuel as [|fuel]; [lia|].
    assert (Hcons : exists c s, l ++ NL :: concat (map (fun l0 => l0 ++ [NL]) ls) = c :: s)
      by (destruct l; cbn; eauto).
    destruct Hcons as (c & s & Hcs).
    cbn [config_scan]. rewrite Hcs, <- Hcs.
    rewrite (fgets_line 255 l _ Hlen Hl).
    rewrite c_string_id.
    2:{ apply Forall_app; split.
        - eapply Forall_impl; [exact Hl|]. cbn. tauto.
        - constructor; [discriminate | constructor]. }
    destruct (strstr_found CONFIG_KEY (l ++ [NL])); [reflexivity|].
    cbn [orb]. apply IH; [exact Hls' | lia].
Qed.

Lemma existsb_key_lines ls :
  existsb (fun l => strstr_found CONFIG_KEY (l ++ [NL])) ls = true
  <-> Exists (contains CONFIG_KEY) ls.
Proof.
  rewrite existsb_exists, Exists_exists. split.
  - intros (l & Hin & H). exists l. split; [now apply list_elem_of_In|].
    now apply contains_key_newline, strstr_found_spec.
  - intros (l & Hin & H). exists l. split; [now apply list_elem_of_In|].
    now apply strstr_found_spec, contains_key_newline.
Qed.

End Config.

(** X1: for a configuration file made of lines shorter than the buffer
    of [load_config], the engine is enabled exactly when some line holds
    the text [SWEETENGINE=true] anywhere in it: then [load_config]
    returns 1 with [enabled] set to 1; otherwise it returns 0 and the
    engine is as it was. *)
Theorem load_config_lines (ls : list cstr) (w : World) :
  Forall config_line_ok ls ->
  (Exists (contains CONFIG_KEY) ls ->
   load_config (Some (join_lines ls)) w
   = Done 1 (add_stdout (lit "SweetEngine: Enabled via config" ++ [NL])
               (set_engine (set_enabled 1 (engine w)) w))) /\
  (~ Exists (contains CONFIG_KEY) ls ->
   load_config (Some (join_lines ls)) w
   = Done 0 (add_stdout (lit "SweetEngine: Disabled via config" ++ [NL]) w)).
Proof.
  intros Hls. unfold load_config.
  rewrite (config_scan_lines ls Hls _ (le_n _)).
  split; intros H.
  - apply existsb_key_lines in H. rewrite H. reflexivity.
  - destruct (existsb (fun l => strstr_found CONFIG_KEY (l ++ [NL])) ls) eqn:He;
      [|reflexivity].
    exfalso. apply H. now apply existsb_key_lines.
Qed.

Lemma load_config_lines_witness :
  load_config (Some (join_lines config_lines_sample)) world_zero
  = Done 1 (add_stdout (lit "SweetEngine: Enabled via config" ++ [NL])
              (set_engine (set_enabled 1 (engine world_zero)) world_zero)).
Proof.
  refine (proj1 (load_config_lines config_lines_sample world_zero _) _).
  - repeat (constructor; [split; [cbn; lia | repeat constructor; discriminate]|]).
    constructor.
  - apply Exists_cons_tl, Exists_cons_hd. exists (lit "#"), []. reflexivity.
Defined.

(** ** Starting up *)

Lemma parse_lines_beside ls : forall e, beside_catalog (parse_lines ls e) = beside_catalog e.
Proof.
  induction ls as [|l ls IH]; intros e; cbn [parse_lines]; [reflexivity|].
  destruct (achievement_count e <? MAX_ACHIEVEMENTS); [|reflexivity].
  destruct (has_prefix (lit "ACH:") l); cbv zeta; rewrite IH; reflexivity.
Qed.

Lemma load_from_buffer_beside data e :
  beside_catalog (load_from_buffer data e) = beside_catalog e.
Proof.
  unfold load_from_buffer.
  destruct (achievement_count (parse_lines _ _) =? 0).
  - transitivity (beside_catalog
                    (parse_lines (strtok_lines (c_string data)) (set_achievement_count 0 e)));
      [reflexivity|]. now rewrite parse_lines_beside.
  - now rewrite parse_lines_beside.
Qed.


(** X2: when the configuration file cannot be opened, or none of its
    lines holds the key, startup stops before any work: the result is
    [false], the data file is not read (it is only created, empty, when
    absent), nothing is logged or sent, and the engine is as it was,
    disabled included. *)
Theorem startup_disabled (env : Env) (cfg : option (list ascii)) (w : World) :
  cfg = None \/
  (exists ls, cfg = Some (join_lines ls) /\ Forall config_line_ok ls
              /\ ~ Exists (contains CONFIG_KEY) ls) ->
  exists w',
    main_startup env cfg w = Done false w' /\
    engine w' = set_data_mutex false (engine w) /\
    store w' = store_after_init env (store w) /\
    engine_log w' = engine_log w /\
    sock_out w' = sock_out w /\
    save_calls w' = save_calls w.
Proof.
  intros Hcfg. unfold main_startup, load_config.
  assert (Hscan : match cfg with
                  | None => True
                  | Some content => config_scan (length content) content = false
                  end).
  { destruct Hcfg as [->|(ls & -> & Hls & Hno)]; [exact I|].
    rewrite (config_scan_lines ls Hls _ (le_n _)).
    destruct (existsb (fun l => strstr_found CONFIG_KEY (l ++ [NL])) ls) eqn:He;
      [|reflexivity].
    exfalso. apply Hno. now apply existsb_key_lines. }
  destruct w as [e bc we ec st lg so se sd sv].
  destruct cfg as [content|]; [rewrite Hscan|];
    unfold init_directories, modify_engine, modify, bind, ret, store_after_init; cbn;
    destruct st, (store_writable env); cbn;
    eexists; (split; [reflexivity|]); repeat split; reflexivity.
Qed.

Lemma startup_disabled_witness :
  exists w',
    main_startup (env_ok 1000) (Some (join_lines [lit "SWEETENGINE=false"])) world_zero
    = Done false w' /\
    engine w' = set_data_mutex false (engine world_zero) /\
    engine_log w' = [].
Proof.
  destruct (startup_disabled (env_ok 1000) (Some (join_lines [lit "SWEETENGINE=false"]))
              world_zero) as (w' & H1 & H2 & _ & H3 & _).
  - right. exists [lit "SWEETENGINE=false"]. split; [reflexivity|]. split.
    + constructor; [split; [cbn; lia | repeat constructor; discriminate] | constructor].
    + intros H. apply existsb_key_lines in H. vm_compute in H. discriminate H.
  - exists w'. auto.
Defined.



(** ** The notification sent to the consumer *)

Lemma length_dec_digits fuel :
  forall n acc, (length (dec_digits fuel n acc) <= S fuel + length acc)%nat.
Proof.
  induction fuel as [|f IH]; intros n acc; cbn [dec_digits]; [cbn; lia|].
  destruct (n <? 10); [cbn; lia|].
  specialize (IH (n / 10) (digit_char (n mod 10) :: acc)). cbn [length] in IH. lia.
Qed.

Lemma length_print_int z :
  LONG_MIN <= z <= LONG_MAX -> (length (print_int z) <= 65)%nat.
Proof.
  unfold LONG_MIN, LONG_MAX, print_int. intros Hz.
  assert (Hlog : forall n, 0 <= n <= 2 ^ 63 -> (Z.to_nat (Z.log2 n) <= 63)%nat).
  { intros n Hn. assert (Z.log2 n <= Z.log2 (2 ^ 63)) by (apply Z.log2_le_mono; lia).
    rewrite Z.log2_pow2 in H by lia. lia. }
  destruct (z <? 0) eqn:Hneg.
  - apply Z.ltb_lt in Hneg. cbn [length].
    pose proof (length_dec_digits (Z.to_nat (Z.log2 (- z))) (- z) []).
    pose proof (Hlog (- z) ltac:(lia)). cbn [length] in *. lia.
  - apply Z.ltb_ge in Hneg.
    pose proof (length_dec_digits (Z.to_nat (Z.log2 z)) z []).
    pose proof (Hlog z ltac:(lia)). cbn [length] in *. lia.
Qed.

Lemma length_notification_text message type priority t :
  LONG_MIN <= priority <= LONG_MAX -> LONG_MIN <= t <= LONG_MAX ->
  (length (notification_text message type priority t)
   <= 50 + length message + length type + 130)%nat.
Proof.
  intros Hp Ht. unfold notification_text.
  rewrite !length_app. cbn [length lit list_ascii_of_string].
  pose proof (length_print_int priority Hp). pose proof (length_print_int t Ht). lia.
Qed.

(** X4: whatever is sent, the payload [send_notification] writes has at
    most 511 bytes; and when the message and the type leave room (331
    bytes together), it is the whole record, closing brace and newline
    included.  For an entry whose name and description fit their arrays
    the unlock message is never cut, and neither is its payload. *)
Theorem notification_payload_complete (message type : cstr) (priority t : Z) (a : Achievement) :
  LONG_MIN <= priority <= LONG_MAX ->
  LONG_MIN <= t <= LONG_MAX ->
  (length (notification_payload message type priority t) <= 511)%nat /\
  ((length message + length type <= 331)%nat ->
   notification_payload message type priority t = notification_text message type priority t) /\
  ((length (name a) <= 63)%nat -> (length (description a) <= 127)%nat ->
   unlock_message a = unlock_text a /\
   notification_payload (unlock_message a) (lit "achievement") priority t
   = notification_text (unlock_text a) (lit "achievement") priority t).
Proof.
  intros Hp Ht.
  assert (Hdef : forall m ty, notification_payload m ty priority t
                              = take 511 (notification_text m ty priority t))
    by reflexivity.
  assert (Hfit : forall m ty, (length m + length ty <= 331)%nat ->
                   notification_payload m ty priority t = notification_text m ty priority t).
  { intros m ty Hlen. rewrite Hdef. apply take_ge.
    pose proof (length_notification_text m ty priority t Hp Ht). lia. }
  split; [rewrite Hdef, length_take; lia|]. split; [apply Hfit|].
  intros Hn Hd.
  assert (Hu : unlock_message a = unlock_text a).
  { unfold unlock_message, unlock_text, snprintf_trunc. apply take_ge.
    rewrite !length_app. cbn [length lit list_ascii_of_string unlock_prefix map]. lia. }
  split; [exact Hu|]. rewrite Hu. apply Hfit.
  unfold unlock_text. rewrite !length_app.
  cbn [length lit list_ascii_of_string unlock_prefix map]. lia.
Qed.

Lemma notification_payload_complete_witness :
  notification_payload (unlock_message large_record) (lit "achievement") 5 1700000000
  = notification_text (unlock_text large_record) (lit "achievement") 5 1700000000.
Proof.
  refine (proj2 (proj2 (proj2
    (notification_payload_complete [] [] 5 1700000000 large_record _ _)) _ _)).
  - unfold LONG_MIN, LONG_MAX. lia.
  - unfold LONG_MIN, LONG_MAX. lia.
  - vm_compute. lia.
  - vm_compute. lia.
Defined.

(** ** The workers, turn by turn *)

Section Turns.

Lemma queue_advance_mutex e :
  data_mutex e = false ->
  set_data_mutex false (queue_advance (set_data_mutex true e)) = queue_advance e.
Proof. destruct e; cbn. now intros ->. Qed.

Lemma queue_push_mutex n e :
  data_mutex e = false ->
  set_data_mutex false (queue_push n (set_data_mutex true e)).2 = (queue_push n e).2.
Proof.
  intros Hm. unfold queue_push.
  change (notification_count (set_data_mutex true e)) with (notification_count e).
  destruct (notification_count e <? MAX_NOTIFICATIONS - 1);
    cbn; destruct e; cbn in *; subst; reflexivity.
Qed.

Lemma wrap32_range z : INT_MIN <= wrap32 z <= INT_MAX.
Proof.
  unfold wrap32, wrap, INT_MIN, INT_MAX.
  change (2 ^ 32) with 4294967296. change (2 ^ (32 - 1)) with 2147483648.
  change (2 ^ 31) with 2147483648.
  pose proof (Z.mod_pos_bound z 4294967296 ltac:(lia)).
  destruct (z mod 4294967296 <? 2147483648) eqn:Hlt;
    [apply Z.ltb_lt in Hlt | apply Z.ltb_ge in Hlt]; lia.
Qed.

End Turns.

(** X5: a turn of the dispatcher with the consumer in reach.  When the
    queue is not empty the notification at its head is sent (message,
    type and priority as stored, the time being that of the turn), the
    head moves on and the count drops by one; when it is empty the
    engine is as it was.  In both cases a random notification follows
    when [rand () % 100 < 5], and nothing else changes. *)
Theorem dispatcher_turn_delivers (env : Env) (r1 r2 : Z) (w : World) :
  data_mutex (engine w) = false ->
  enabled (engine w) <> 0 ->
  consumer_up env = true ->
  (forall n, queue_front (engine w) = Some n ->
     step_body env (NotificationDispatcher r1 r2) w
     = Done tt
         ((if Z.rem r1 100 <? 5
           then add_sock_out (notification_payload (random_msgs !!! Z.to_nat (Z.rem r2 10))
                                (lit "random") 2 (now env))
           else fun w' => w')
            (add_sock_out (notification_payload (message n) (type n) (priority n) (now env))
               (set_engine (queue_advance (engine w)) w)))) /\
  (queue_front (engine w) = None ->
     step_body env (NotificationDispatcher r1 r2) w
     = Done tt
         ((if Z.rem r1 100 <? 5
           then add_sock_out (notification_payload (random_msgs !!! Z.to_nat (Z.rem r2 10))
                                (lit "random") 2 (now env))
           else fun w' => w') w)).
Proof.
  intros Hm Hen Hc.
  unfold step_body, while_enabled.
  apply Z.eqb_neq in Hen. rewrite Hen.
  unfold notification_dispatcher_body, generate_random_notification, send_notification,
    pthread_mutex_lock, pthread_mutex_unlock, modify_engine, modify, bind, ret.
  rewrite Hm, Hc. cbn [engine set_engine].
  change (queue_front (set_data_mutex true (engine w))) with (queue_front (engine w)).
  split.
  - intros n Hq. rewrite Hq. cbn [add_sock_out engine set_engine].
    rewrite (queue_advance_mutex _ Hm).
    destruct (Z.rem r1 100 <? 5); reflexivity.
  - intros Hq. rewrite Hq. cbn [engine set_engine].
    rewrite (set_data_mutex_back _ Hm).
    destruct w as [e bc we ec st lg so se sd sv]; cbn.
    destruct (Z.rem r1 100 <? 5); reflexivity.
Qed.

Lemma dispatcher_turn_delivers_witness :
  step_body (env_ok 3000) (NotificationDispatcher 50 0) world_one_queued
  = Done tt
      (add_sock_out (notification_payload (lit "n") (lit "system") 1 3000)
         (set_engine (queue_advance (engine world_one_queued)) world_one_queued)).
Proof.
  refine (proj1 (dispatcher_turn_delivers (env_ok 3000) 50 0 world_one_queued _ _ _)
            (numbered 1) _).
  - reflexivity.
  - vm_compute. discriminate.
  - reflexivity.
  - reflexivity.
Defined.

(** X6: a turn of the listener.  The counter advances by
    [rand () % 10]; when the new value is a multiple of 50 the status
    notification is handed to the queue (stored at the tail if fewer
    than 99 are pending, dropped otherwise), and in every other case the
    engine is as it was.  The message of the notification is never cut.
    Nothing is sent, logged or saved. *)
Theorem listener_turn (env : Env) (r : Z) (w : World) :
  data_mutex (engine w) = false ->
  enabled (engine w) <> 0 ->
  step_body env (WaylandListener r) w
  = Done tt
      (set_engine
         (if Z.rem (wrap32 (event_count w + Z.rem r 10)) 50 =? 0
          then (queue_push (wayland_notification env (wrap32 (event_count w + Z.rem r 10)))
                  (engine w)).2
          else engine w)
         (set_event_count (wrap32 (event_count w + Z.rem r 10)) w)) /\
  message (wayland_notification env (wrap32 (event_count w + Z.rem r 10)))
  = lit "Wayland events: " ++ print_int (wrap32 (event_count w + Z.rem r 10))
    ++ lit " processed".
Proof.
  intros Hm Hen. split.
  - unfold step_body, while_enabled.
    apply Z.eqb_neq in Hen. rewrite Hen.
    unfold wayland_event_listener_body, pthread_mutex_lock, pthread_mutex_unlock,
      modify_engine, modify, bind, ret.
    cbn [engine set_event_count event_count]. rewrite Hm.
    cbn [engine set_engine event_count set_event_count].
    destruct (Z.rem (wrap32 (event_count w + Z.rem r 10)) 50 =? 0).
    + cbn [engine set_engine]. rewrite (queue_push_mutex _ _ Hm). reflexivity.
    + cbn [engine set_engine]. now rewrite (set_data_mutex_back _ Hm).
  - unfold wayland_notification, snprintf_trunc. cbn [message]. apply take_ge.
    pose proof (wrap32_range (event_count w + Z.rem r 10)) as Hr.
    assert (Hl : LONG_MIN <= wrap32 (event_count w + Z.rem r 10) <= LONG_MAX)
      by (unfold LONG_MIN, LONG_MAX, INT_MIN, INT_MAX in *; lia).
    pose proof (length_print_int _ Hl).
    rewrite !length_app. cbn [length lit list_ascii_of_string]. lia.
Qed.

Lemma listener_turn_witness :
  step_body (env_ok 2000) (WaylandListener 0) world_seeded
  = Done tt
      (set_engine (queue_push (wayland_notification (env_ok 2000) 0) (engine world_seeded)).2
         (set_event_count 0 world_seeded)).
Proof.
  refine (eq_trans (proj1 (listener_turn (env_ok 2000) 0 world_seeded _ _)) _).
  - reflexivity.
  - vm_compute. discriminate.
  - reflexivity.
Defined.

(** ** The queue under the whole program *)

Section QueueFrame.

Lemma same_queue_refl w : same_queue w w.
Proof. reflexivity. Qed.

Lemma same_queue_trans w1 w2 w3 :
  same_queue w1 w2 -> same_queue w2 w3 -> same_queue w1 w3.
Proof. unfold same_queue. congruence. Qed.

Local Ltac qframe :=
  repeat first
    [ apply preserves_bind; [exact same_queue_trans | | intros ?]
    | apply preserves_ret; exact same_queue_refl
    | apply preserves_modify; intros ?; reflexivity ].

Lemma send_notification_queue env m t p : preserves same_queue (send_notification env m t p).
Proof. unfold send_notification. destruct (consumer_up env); qframe. Qed.

Lemma log_engine_event_queue env ev : preserves same_queue (log_engine_event env ev).
Proof. unfold log_engine_event. destruct (log_writable env); qframe. Qed.

Lemma pthread_mutex_lock_queue : preserves same_queue pthread_mutex_lock.
Proof. intros w. unfold pthread_mutex_lock. destruct (data_mutex (engine w)); reflexivity. Qed.

Lemma pthread_mutex_unlock_queue : preserves same_queue pthread_mutex_unlock.
Proof. intros w. reflexivity. Qed.

Lemma save_engine_data_queue env : preserves same_queue (save_engine_data env).
Proof.
  unfold save_engine_data.
  apply preserves_bind; [exact same_queue_trans | qframe | intros _].
  apply preserves_bind; [exact same_queue_trans | exact pthread_mutex_lock_queue | intros _].
  destruct (store_writable env).
  - apply preserves_bind; [exact same_queue_trans | intros w; apply same_queue_refl | intros w0].
    destruct (serialize (engine w0)).
    + apply preserves_bind; [exact same_queue_trans | qframe | intros _].
      apply preserves_bind; [exact same_queue_trans | exact pthread_mutex_unlock_queue | intros _].
      qframe.
    + intros w. apply same_queue_refl.
  - apply preserves_bind; [exact same_queue_trans | exact pthread_mutex_unlock_queue | intros _].
    qframe.
Qed.

Lemma unlock_loop_queue env ident ix : preserves same_queue (unlock_loop env ident ix).
Proof.
  induction ix as [|i ix IH]; intros w; cbn [unlock_loop]; [apply same_queue_refl|].
  destruct (strcmp_eq (id (ach_at (engine w) i)) ident
            && (unlocked (ach_at (engine w) i) =? 0)); [|apply IH].
  generalize (ach_at (engine w) i). intros a. revert w.
  apply preserves_bind; [exact same_queue_trans | intros w; reflexivity | intros _].
  apply preserves_bind; [exact same_queue_trans | apply send_notification_queue | intros _].
  apply preserves_bind; [exact same_queue_trans | apply log_engine_event_queue | intros _].
  apply preserves_bind; [exact same_queue_trans | apply save_engine_data_queue | intros _].
  qframe.
Qed.

Lemma check_loop_queue env ident counter ix :
  preserves same_queue (check_loop env ident counter ix).
Proof.
  induction ix as [|i ix IH]; cbn [check_loop]; [intros w; apply same_queue_refl|].
  apply preserves_bind; [exact same_queue_trans | | intros _; exact IH].
  intros w.
  destruct (strcmp_eq (id (ach_at (engine w) i)) ident
            && (target (ach_at (engine w) i) <=? counter w)
            && (unlocked (ach_at (engine w) i) =? 0)).
  - apply unlock_loop_queue.
  - apply same_queue_refl.
Qed.

Lemma check_achievement_progress_queue env :
  preserves same_queue (check_achievement_progress env).
Proof.
  unfold check_achievement_progress.
  apply preserves_bind; [exact same_queue_trans | intros w; reflexivity | intros _].
  apply preserves_bind; [exact same_queue_trans | | intros _].
  - intros w. apply check_loop_queue.
  - intros w. apply check_loop_queue.
Qed.

Lemma locked_check_queue env :
  preserves same_queue
    (pthread_mutex_lock ;;; check_achievement_progress env ;;; pthread_mutex_unlock).
Proof.
  apply preserves_bind; [exact same_queue_trans | exact pthread_mutex_lock_queue | intros _].
  apply preserves_bind; [exact same_queue_trans | apply check_achievement_progress_queue
                        | intros _; exact pthread_mutex_unlock_queue].
Qed.

Lemma queue_ok_state e e' :
  queue_state e' = queue_state e -> queue_ok e -> queue_ok e'.
Proof.
  unfold queue_state, queue_ok, queue_holds. intros [= Hq Hc Hh Ht] [pending H].
  exists pending. now rewrite Hq, Hc, Hh, Ht.
Qed.

Lemma queue_ok_pop e : queue_ok e -> queue_ok (queue_pop e).2.
Proof.
  intros [pending H]. destruct pending as [|x pending].
  - rewrite (queue_pop_empty e H). now exists [].
  - destruct (queue_pop_holds x e pending H) as [Heq H']. rewrite Heq. now exists pending.
Qed.

Lemma queue_ok_push n e : queue_ok e -> queue_ok (queue_push n e).2.
Proof.
  intros [pending H]. destruct (le_lt_dec 99 (length pending)) as [Hfull|Hroom].
  - rewrite (queue_push_full n e pending H Hfull). now exists pending.
  - destruct (queue_push_holds n e pending H Hroom) as [_ H']. now exists (pending ++ [n]).
Qed.

Lemma dispatcher_body_queue env r1 r2 w :
  queue_ok (engine w) ->
  queue_ok (engine (world_of (notification_dispatcher_body env r1 r2 w))).
Proof.
  intros Hok.
  unfold notification_dispatcher_body, generate_random_notification, send_notification,
    pthread_mutex_lock, pthread_mutex_unlock, modify_engine, modify, bind, ret.
  destruct (data_mutex (engine w)); [exact Hok|].
  cbn [engine set_engine].
  assert (Hpop := queue_ok_pop _ Hok). unfold queue_pop in Hpop.
  change (queue_front (set_data_mutex true (engine w))) with (queue_front (engine w)).
  destruct (queue_front (engine w)) as [n|], (consumer_up env), (Z.rem r1 100 <? 5);
    cbn; (eapply queue_ok_state; [|exact Hpop]); reflexivity.
Qed.

Lemma listener_body_queue env r w :
  queue_ok (engine w) ->
  queue_ok (engine (world_of (wayland_event_listener_body env r w))).
Proof.
  intros Hok.
  unfold wayland_event_listener_body, pthread_mutex_lock, pthread_mutex_unlock,
    modify_engine, modify, bind, ret.
  cbn [engine set_event_count event_count].
  destruct (data_mutex (engine w)); [exact Hok|].
  cbn [engine set_engine event_count set_event_count].
  destruct (Z.rem (wrap32 (event_count w + Z.rem r 10)) 50 =? 0); cbn [world_of engine set_engine].
  - assert (Hpush := queue_ok_push
                       (wayland_notification env (wrap32 (event_count w + Z.rem r 10))) _ Hok).
    eapply queue_ok_state; [|exact Hpush].
    unfold queue_push.
    change (notification_count (set_data_mutex true (engine w)))
      with (notification_count (engine w)).
    destruct (notification_count (engine w) <? MAX_NOTIFICATIONS - 1); reflexivity.
  - eapply queue_ok_state; [|exact Hok]. reflexivity.
Qed.

Lemma call_body_queue env c w :
  queue_ok (engine w) -> queue_ok (engine (world_of (call_body env c w))).
Proof.
  intros Hok.
  assert (Hsame : forall w', same_queue w w' -> queue_ok (engine w'))
    by (intros w' H; eapply queue_ok_state; [exact H | exact Hok]).
  destruct c as [s| |ident]; cbn [call_body].
  - unfold step_body, while_enabled.
    destruct (enabled (engine w) =? 0); [exact Hok|].
    destruct s as [|len|r1 r2|r|len cfg].
    + apply Hsame, locked_check_queue.
    + unfold kernel_hook_body. destruct (0 <? len); [apply Hsame, locked_check_queue | exact Hok].
    + now apply dispatcher_body_queue.
    + now apply listener_body_queue.
    + unfold main_loop_body, load_config. destruct (0 <? len); [|exact Hok].
      destruct cfg as [content|]; [destruct (config_scan (length content) content)|];
        apply Hsame; reflexivity.
  - apply Hsame, check_achievement_progress_queue.
  - apply Hsame, unlock_loop_queue.
Qed.

Lemma queue_ok_bounds e : queue_ok e -> queue_bounds e.
Proof.
  intros [pending (Hlen & Hh & Hc & Hmax & Ht & _)].
  unfold queue_bounds. repeat split; try lia; try assumption.
  - rewrite Ht. apply Z.mod_pos_bound. unfold MAX_NOTIFICATIONS. lia.
  - rewrite Ht. apply Z.mod_pos_bound. unfold MAX_NOTIFICATIONS. lia.
Qed.

End QueueFrame.

(** X7: the queue stays well formed under the whole program.  From a
    world whose queue is a well-formed circular buffer (as the zeroed
    one at startup), along every sequence of turns of the threads, ticks
    of the evaluator and unlock attempts, [notification_count] stays
    within 0 .. 99, [notification_head] and [notification_tail] stay
    within 0 .. 99 with the tail [notification_count] slots after the
    head, and the array keeps its 100 slots. *)
Theorem queue_bounds_along_runs (calls : list (Env * Call)) (w : World) :
  queue_ok (engine w) ->
  Forall (fun w' => queue_bounds (engine w')) (run calls w).
Proof.
  revert w. induction calls as [|[env c] calls IH]; intros w Hok; cbn [run].
  - constructor; [now apply queue_ok_bounds | constructor].
  - constructor; [now apply queue_ok_bounds|].
    assert (Hnext := call_body_queue env c w Hok).
    destruct (call_body env c w) as [[] w'|w'|w']; cbn [world_of] in Hnext.
    + now apply IH.
    + now apply IH.
    + constructor; [now apply queue_ok_bounds | constructor].
Qed.

Lemma queue_bounds_along_runs_witness :
  Forall (fun w' => queue_bounds (engine w')) (run mixed_run world_seeded).
Proof.
  apply queue_bounds_along_runs.
  exists []. unfold queue_holds, MAX_NOTIFICATIONS.
  repeat split; try reflexivity; try (vm_compute; discriminate).
  intros k Hk. cbn in Hk. lia.
Defined.

(** ** The evaluator and the mutex *)

Section EvaluatorTurns.

Lemma none_due_mutex ident c b e :
  none_due ident c e -> none_due ident c (set_data_mutex b e).
Proof. intros H. exact H. Qed.

Lemma locked_check_idle env w :
  data_mutex (engine w) = false ->
  none_due (lit "boot_master") (wrap32 (boot_count w + 1)) (engine w) ->
  none_due (lit "wayland_pro") (wayland_events w) (engine w) ->
  (pthread_mutex_lock ;;; check_achievement_progress env ;;; pthread_mutex_unlock) w
  = Done tt (set_boot_count (wrap32 (boot_count w + 1)) w).
Proof.
  intros Hm Hb Hw.
  set (w1 := set_engine (set_data_mutex true (engine w)) w).
  rewrite (bind_done _ _ w tt w1) by (unfold pthread_mutex_lock; now rewrite Hm).
  set (w2 := set_boot_count (wrap32 (boot_count w1 + 1)) w1).
  assert (Hcheck : check_achievement_progress env w1 = Done tt w2).
  { unfold check_achievement_progress.
    rewrite (bind_done _ _ w1 tt w2) by reflexivity.
    rewrite (bind_done _ _ w2 tt w2).
    - apply (check_loop_none_due env (lit "wayland_pro") wayland_events w2).
      exact (none_due_mutex _ _ true _ Hw).
    - apply (check_loop_none_due env (lit "boot_master") boot_count w2).
      exact (none_due_mutex _ _ true _ Hb). }
  rewrite (bind_done _ _ w1 tt w2 Hcheck).
  unfold pthread_mutex_unlock, modify_engine, modify, w2, w1.
  cbn [engine set_engine set_boot_count].
  rewrite (set_data_mutex_back _ Hm).
  destruct w; reflexivity.
Qed.

Lemma unlock_achievement_blocked_world env ident i w :
  data_mutex (engine w) = true ->
  first_locked ident i (engine w) ->
  exists w',
    unlock_achievement env ident w = Blocked w' /\
    data_mutex (engine w') = true /\ store w' = store w /\
    enabled (engine w') = enabled (engine w) /\
    ach_at (engine w') i = mark_unlocked (now env) (ach_at (engine w) i).
Proof.
  intros Hm (Hi & Hlen & Hid & Hu & Hfirst).
  unfold unlock_achievement.
  rewrite (indices_split _ i Hi).
  rewrite unlock_loop_skip.
  2:{ intros j Hj. apply elem_of_indices in Hj. now apply Hfirst. }
  cbn [unlock_loop].
  apply strcmp_eq_spec in Hid. apply Z.eqb_eq in Hu.
  rewrite Hid, Hu. cbn [andb].
  assert (Hat : forall q, ach_at (set_ach_at i q (engine w)) i = q).
  { intros q. unfold ach_at, set_ach_at; cbn. now apply list_lookup_total_insert_eq. }
  unfold send_notification, log_engine_event, save_engine_data, pthread_mutex_lock,
    modify_engine, modify, bind, ret.
  destruct (consumer_up env), (log_writable env); cbn; rewrite Hm;
    eexists; (split; [reflexivity|]); cbn; repeat split; auto; exact (Hat _).
Qed.

Lemma check_loop_blocked_world env ident counter i w :
  data_mutex (engine w) = true ->
  first_locked ident i (engine w) ->
  target (ach_at (engine w) i) <= counter w ->
  exists w',
    check_loop env ident counter (indices (achievement_count (engine w))) w = Blocked w' /\
    data_mutex (engine w') = true /\ store w' = store w /\
    enabled (engine w') = enabled (engine w) /\
    ach_at (engine w') i = mark_unlocked (now env) (ach_at (engine w) i).
Proof.
  intros Hm Hf Ht.
  destruct (unlock_achievement_blocked_world env ident i w Hm Hf) as (w' & Hb & Hrest).
  exists w'. split; [|exact Hrest].
  destruct Hf as (Hi & Hlen & Hid & Hu & Hfirst).
  rewrite (indices_split _ i Hi).
  rewrite check_loop_idle.
  2:{ intros j Hj (Hj1 & _ & Hj3). apply elem_of_indices in Hj.
      now apply (Hfirst j Hj Hj1). }
  cbn [check_loop]. unfold bind.
  apply strcmp_eq_spec in Hid. apply Z.eqb_eq in Hu. apply Z.leb_le in Ht.
  rewrite Hid, Ht, Hu. cbn [andb].
  now rewrite Hb.
Qed.

End EvaluatorTurns.

(** X8: a turn of the evaluator (from the monitor thread, or from the
    kernel hook after a change it was told of) that finds no entry due
    counts one more boot and does nothing else: no entry changes, nothing
    is sent, logged or saved, and the mutex is free again. *)
Theorem evaluator_idle_turn (env : Env) (s : Step) (w : World) :
  runs_evaluator s = true ->
  data_mutex (engine w) = false ->
  enabled (engine w) <> 0 ->
  none_due (lit "boot_master") (wrap32 (boot_count w + 1)) (engine w) ->
  none_due (lit "wayland_pro") (wayland_events w) (engine w) ->
  step_body env s w = Done tt (set_boot_count (wrap32 (boot_count w + 1)) w).
Proof.
  intros Hs Hm Hen Hb Hw.
  unfold step_body, while_enabled.
  apply Z.eqb_neq in Hen. rewrite Hen.
  destruct s as [|len|r1 r2|r|len cfg]; try discriminate Hs.
  - now apply locked_check_idle.
  - unfold kernel_hook_body. cbn in Hs. rewrite Hs. now apply locked_check_idle.
Qed.

Lemma evaluator_idle_turn_witness :
  step_body (env_ok 2000) (KernelHook 16) world_seeded
  = Done tt (set_boot_count 1 world_seeded).
Proof.
  apply (evaluator_idle_turn (env_ok 2000) (KernelHook 16) world_seeded).
  - reflexivity.
  - reflexivity.
  - vm_compute. discriminate.
  - intros j Hj. change (achievement_count (engine world_seeded)) with 2 in Hj.
    assert (Hcase : j = 0 \/ j = 1) by lia.
    destruct Hcase as [-> | ->]; vm_compute; intros (H1 & H2 & H3);
      [apply H2; reflexivity | discriminate H1].
  - intros j Hj. change (achievement_count (engine world_seeded)) with 2 in Hj.
    assert (Hcase : j = 0 \/ j = 1) by lia.
    destruct Hcase as [-> | ->]; vm_compute; intros (H1 & H2 & H3);
      [discriminate H1 | apply H2; reflexivity].
Defined.

(** X9: the unlock a turn of the monitor thread performs never reaches
    the data file.  The turn holds the mutex when it calls
    [unlock_achievement], and [save_engine_data] asks for the same mutex
    first: the turn does not return, the mutex stays held, the entry is
    marked unlocked in memory and the file is as it was. *)
Theorem evaluator_unlock_blocks (env : Env) (i : Z) (w : World) :
  enabled (engine w) <> 0 ->
  data_mutex (engine w) = false ->
  (first_locked (lit "boot_master") i (engine w) /\
   target (ach_at (engine w) i) <= wrap32 (boot_count w + 1))
  \/
  (none_due (lit "boot_master") (wrap32 (boot_count w + 1)) (engine w) /\
   first_locked (lit "wayland_pro") i (engine w) /\
   target (ach_at (engine w) i) <= wayland_events w) ->
  exists w',
    step_body env AchievementMonitor w = Blocked w' /\
    data_mutex (engine w') = true /\
    enabled (engine w') = enabled (engine w) /\
    store w' = store w /\
    ach_at (engine w') i = mark_unlocked (now env) (ach_at (engine w) i).
Proof.
  intros Hen Hm Hdue.
  unfold step_body, while_enabled.
  apply Z.eqb_neq in Hen. rewrite Hen.
  unfold achievement_monitor_body.
  set (w1 := set_engine (set_data_mutex true (engine w)) w).
  rewrite (bind_done _ _ w tt w1) by (unfold pthread_mutex_lock; now rewrite Hm).
  set (w2 := set_boot_count (wrap32 (boot_count w1 + 1)) w1).
  assert (Hm2 : data_mutex (engine w2) = true) by reflexivity.
  enough (H : exists w', check_achievement_progress env w1 = Blocked w' /\
                data_mutex (engine w') = true /\ store w' = store w2 /\
                enabled (engine w') = enabled (engine w2) /\
                ach_at (engine w') i = mark_unlocked (now env) (ach_at (engine w2) i)).
  { destruct H as (w' & Heq & H1 & H2 & H3 & H4).
    exists w'. rewrite (bind_blocked _ _ w1 w' Heq). auto. }
  unfold check_achievement_progress.
  rewrite (bind_done _ _ w1 tt w2) by reflexivity.
  destruct Hdue as [[Hf Ht] | (Hnone & Hf & Ht)].
  - destruct (check_loop_blocked_world env (lit "boot_master") boot_count i w2 Hm2 Hf Ht)
      as (w' & Heq & Hrest).
    exists w'. split; [|exact Hrest]. now apply bind_blocked.
  - destruct (check_loop_blocked_world env (lit "wayland_pro") wayland_events i w2 Hm2 Hf Ht)
      as (w' & Heq & Hrest).
    exists w'. split; [|exact Hrest].
    rewrite (bind_done _ _ w2 tt w2); [exact Heq|].
    now apply check_loop_none_due.
Qed.

Lemma evaluator_unlock_blocks_witness :
  exists w',
    step_body (env_ok 2000) AchievementMonitor world_before_tenth = Blocked w' /\
    data_mutex (engine w') = true /\
    store w' = Some store_header.
Proof.
  destruct (evaluator_unlock_blocks (env_ok 2000) 0 world_before_tenth)
    as (w' & H1 & H2 & _ & H3 & _).
  - vm_compute. discriminate.
  - reflexivity.
  - left. split.
    + unfold first_locked.
      change (achievement_count (engine world_before_tenth)) with 2.
      split; [lia|]. split; [vm_compute; lia|].
      split; [reflexivity|]. split; [reflexivity|].
      intros j Hj. lia.
    + vm_compute. discriminate.
  - exists w'. auto.
Defined.

(** X10: while the mutex is held, no turn that asks for it returns, and
    none changes the engine, the data file or what was sent and logged
    (the listener has advanced its own counter before it asks);
    [save_engine_data] does not return either, so [signal_handler] does
    not reach [exit]. *)
Theorem held_mutex_blocks (env : Env) (s : Step) (sig : Z) (w : World) :
  data_mutex (engine w) = true ->
  enabled (engine w) <> 0 ->
  takes_mutex s = true ->
  step_body env s w
  = Blocked (match s with
             | WaylandListener r => set_event_count (wrap32 (event_count w + Z.rem r 10)) w
             | _ => w
             end) /\
  save_engine_data env w = Blocked (count_save_call w) /\
  returned (signal_handler env sig w) = false /\
  store (world_of (signal_handler env sig w)) = store w.
Proof.
  intros Hm Hen Hs. split; [|split; [|split]].
  - unfold step_body, while_enabled.
    apply Z.eqb_neq in Hen. rewrite Hen.
    destruct s as [|len|r1 r2|r|len cfg]; try discriminate Hs.
    + unfold achievement_monitor_body, bind, pthread_mutex_lock. now rewrite Hm.
    + unfold kernel_hook_body. cbn in Hs. rewrite Hs.
      unfold bind, pthread_mutex_lock. now rewrite Hm.
    + unfold notification_dispatcher_body, bind, pthread_mutex_lock. now rewrite Hm.
    + unfold wayland_event_listener_body, bind, modify, pthread_mutex_lock.
      cbn [engine set_event_count]. now rewrite Hm.
  - now apply save_engine_data_blocks.
  - unfold signal_handler, save_engine_data, pthread_mutex_lock, modify_engine, modify, bind.
    cbn. now rewrite Hm.
  - unfold signal_handler, save_engine_data, pthread_mutex_lock, modify_engine, modify, bind.
    cbn. now rewrite Hm.
Qed.

Lemma held_mutex_blocks_witness :
  step_body (env_ok 2001) (NotificationDispatcher 0 0) world_after_tenth
  = Blocked world_after_tenth.
Proof.
  refine (proj1 (held_mutex_blocks (env_ok 2001) (NotificationDispatcher 0 0) 15
                   world_after_tenth _ _ _)).
  - reflexivity.
  - vm_compute. discriminate.
  - reflexivity.
Defined.

(** ** Saving: the three ways it ends *)

Section SaveBuffer.




End SaveBuffer.



(** ** Loading: what of the file is read *)

Lemma c_string_app_nul a b : c_string (a ++ NUL :: b) = c_string a.
Proof.
  induction a as [|c a IH]; cbn [app c_string].
  - now rewrite ascii_eqb_refl.
  - destruct (ascii_eqb c NUL); [reflexivity | now rewrite IH].
Qed.

Lemma load_from_buffer_c_string data data' e :
  c_string data = c_string data' -> load_from_buffer data e = load_from_buffer data' e.
Proof. unfold load_from_buffer. now intros ->. Qed.

(** X12: [load_engine_data] looks at the first 4095 bytes of the file
    and, of those, at the bytes before the first NUL: a file that goes
    on after either point is loaded as the part before it. *)
Theorem load_reads_a_prefix (env : Env) (w : World) (a b : list ascii) :
  store_readable env = true ->
  a <> [] ->
  ((length a < 4095)%nat -> store w = Some (a ++ NUL :: b) ->
   load_engine_data env w = Done 0 (set_engine (load_from_buffer a (engine w)) w)) /\
  (length a = 4095%nat -> store w = Some (a ++ b) ->
   load_engine_data env w = Done 0 (set_engine (load_from_buffer a (engine w)) w)).
Proof.
  intros Hr Hne.
  assert (Hpos : forall x, (length (take 4095 (a ++ x)) =? 0)%nat = false).
  { intros x. apply Nat.eqb_neq. destruct a; [contradiction|]. cbn. lia. }
  split; intros Hlen Hs; unfold load_engine_data, bind, get; rewrite Hr, Hs;
    change (Z.to_nat (DATA_BUFFER_SIZE - 1)) with 4095%nat; rewrite Hpos;
    unfold modify_engine, modify, ret; cbn [engine]; do 2 f_equal;
    apply load_from_buffer_c_string.
  - rewrite take_app_ge by lia.
    replace (4095 - length a)%nat with (S (4094 - length a)) by lia.
    cbn [take]. apply c_string_app_nul.
  - rewrite take_app_le by lia. now rewrite take_ge by lia.
Qed.

Lemma load_reads_a_prefix_witness :
  load_engine_data (env_ok 2) (world_restart (store_with_broken_line ++ NUL :: lit "ACH:x"))
  = Done 0 (set_engine (load_from_buffer store_with_broken_line engine_zero)
              (world_restart (store_with_broken_line ++ NUL :: lit "ACH:x"))).
Proof.
  refine (proj1 (load_reads_a_prefix (env_ok 2)
                   (world_restart (store_with_broken_line ++ NUL :: lit "ACH:x"))
                   store_with_broken_line (lit "ACH:x") _ _) _ _).
  - reflexivity.
  - discriminate.
  - vm_compute. lia.
  - reflexivity.
Defined.

(** ** Loading: defaults and partial records *)

Section LoadEdges.

Lemma parse_lines_no_records ls :
  record_lines ls = [] -> forall e, parse_lines ls e = e.
Proof.
  unfold record_lines.
  induction ls as [|l ls IH]; intros Hnone e; cbn [parse_lines]; [reflexivity|].
  destruct (has_prefix (lit "ACH:") l) eqn:Hp.
  - rewrite filter_cons_True in Hnone by exact Hp. discriminate Hnone.
  - rewrite filter_cons_False in Hnone by (rewrite Hp; discriminate).
    destruct (achievement_count e <? MAX_ACHIEVEMENTS); [now apply IH | reflexivity].
Qed.

Lemma scan_until_bar_end width f :
  (length f <= width)%nat -> bar_free f -> scan_until_bar width f = (f, []).
Proof.
  revert width. induction f as [|c f IH]; intros width Hlen Hf.
  - destruct width; reflexivity.
  - destruct width as [|n]; [cbn in Hlen; lia|].
    inversion Hf as [|? ? Hc Hf']; subst.
    cbn [scan_until_bar]. rewrite (ascii_eqb_neq _ _ Hc).
    rewrite IH; [reflexivity | cbn in Hlen; lia | exact Hf'].
Qed.

Lemma scan_until_bar_long width f rest :
  length f = width -> bar_free f -> scan_until_bar width (f ++ rest) = (f, rest).
Proof.
  revert width. induction f as [|c f IH]; intros width Hlen Hf.
  - cbn in Hlen. subst width. destruct rest; reflexivity.
  - destruct width as [|n]; [discriminate Hlen|].
    inversion Hf as [|? ? Hc Hf']; subst.
    cbn [app scan_until_bar]. rewrite (ascii_eqb_neq _ _ Hc).
    rewrite IH; [reflexivity | cbn in Hlen; lia | exact Hf'].
Qed.

End LoadEdges.

(** X13: a file that holds bytes but no line with the record prefix is
    loaded as the two defaults: [boot_master] with target 10 and
    [wayland_pro] with target 500.  The seeding assigns the three texts
    and the target only: progress, unlocked flag and unlock time are what
    the first two slots held (zero at startup). *)
Theorem load_seeds_defaults (data : list ascii) (e : SweetEngine) :
  record_lines (strtok_lines (c_string data)) = [] ->
  (2 <= length (achievements e))%nat ->
  achievement_count (load_from_buffer data e) = 2 /\
  catalog (load_from_buffer data e) = seeded_over e.
Proof.
  intros Hnone Hlen. unfold load_from_buffer.
  rewrite (parse_lines_no_records _ Hnone).
  change (achievement_count (set_achievement_count 0 e) =? 0) with true. cbv iota.
  split; [reflexivity|].
  unfold catalog, seeded_over, seed_defaults, ach_at, set_ach_at. cbn.
  destruct (achievements e) as [|a0 [|a1 rest]]; cbn in Hlen; try lia.
  reflexivity.
Qed.

Lemma load_seeds_defaults_witness :
  catalog (load_from_buffer (lit "# no records here") engine_zero) = default_catalog.
Proof.
  refine (proj2 (load_seeds_defaults (lit "# no records here") engine_zero _ _)).
  - reflexivity.
  - vm_compute. lia.
Defined.

(** X14: what a record line with too little in it leaves in its slot.
    A line with an identifier and a name and no more assigns those two
    fields; a line whose identifier has more than 31 characters assigns
    the first 31 of them to the identifier.  In both cases every other
    field of the slot keeps what it held before the load. *)
Theorem sscanf_partial_record (f1 f2 more : cstr) (slot : Achievement) :
  f1 <> [] -> bar_free f1 -> f2 <> [] -> bar_free f2 ->
  ((length f1 <= 31)%nat -> (length f2 <= 63)%nat ->
   sscanf_achievement (f1 ++ BAR :: f2) slot = with_id_name f1 f2 slot) /\
  (length f1 = 31%nat ->
   sscanf_achievement (f1 ++ f2 ++ BAR :: more) slot = with_id f1 slot).
Proof.
  intros Hne1 Hb1 Hne2 Hb2. split.
  - intros Hl1 Hl2. unfold sscanf_achievement, scan_field.
    assert (H1 : scan_until_bar 31 (f1 ++ BAR :: f2) = (f1, BAR :: f2)).
    { clear Hne1. revert Hl1. generalize 31%nat.
      induction f1 as [|c f IH]; intros width Hl.
      - destruct width; cbn; [reflexivity|]. now rewrite ascii_eqb_refl.
      - destruct width as [|n]; [cbn in Hl; lia|].
        inversion Hb1 as [|? ? Hc Hb']; subst.
        cbn [app scan_until_bar]. rewrite (ascii_eqb_neq _ _ Hc).
        rewrite IH; [reflexivity | exact Hb' | cbn in Hl; lia]. }
    rewrite H1. destruct f1 as [|c1 f1]; [contradiction|].
    cbn [scan_bar]. rewrite ascii_eqb_refl.
    rewrite (scan_until_bar_end 63 f2 Hl2 Hb2).
    destruct f2 as [|c2 f2]; [contradiction|]. reflexivity.
  - intros Hl1. unfold sscanf_achievement, scan_field.
    rewrite (scan_until_bar_long 31 f1 _ Hl1 Hb1).
    destruct f1 as [|c1 f1]; [contradiction|].
    destruct f2 as [|c2 f2]; [contradiction|].
    inversion Hb2 as [|? ? Hc2 _]; subst.
    cbn [app scan_bar]. rewrite (ascii_eqb_neq _ _ Hc2). reflexivity.
Qed.

Lemma sscanf_partial_record_witness :
  sscanf_achievement (lit "fresh|New name") stale_entry
  = mkAchievement (lit "fresh") (lit "New name") (lit "Old description") 7 9 1 1234.
Proof.
  refine (proj1 (sscanf_partial_record (lit "fresh") (lit "New name") [] stale_entry
                   _ _ _ _) _ _).
  - discriminate.
  - repeat constructor; discriminate.
  - discriminate.
  - repeat constructor; discriminate.
  - cbn; lia.
  - cbn; lia.
Defined.

(** ** Loading and saving together *)

Section Persistence.





End Persistence.



(** X16: a restart followed by a shutdown leaves the data file as it
    was.  When the file is the saved text of a catalog of storable
    entries (at most MAX_ACHIEVEMENTS of them, at most 4095 bytes),
    loading it and saving again writes the same bytes. *)
Theorem load_then_save_same_file (env env' : Env) (w : World) (l : list Achievement) :
  store_readable env = true ->
  store_writable env' = true ->
  data_mutex (engine w) = false ->
  l <> [] ->
  Forall storable l ->
  (length l <= Z.to_nat MAX_ACHIEVEMENTS)%nat ->
  (length (store_text l) <= 4095)%nat ->
  (Z.to_nat MAX_ACHIEVEMENTS <= length (achievements (engine w)))%nat ->
  store w = Some (store_text l) ->
  exists w1 w2,
    load_engine_data env w = Done 0 w1 /\
    save_engine_data env' w1 = Done 0 w2 /\
    store w2 = store w /\
    catalog (engine w2) = l.
Proof.
  intros Hr Hw Hm Hne Hl Hcap Hfit Hlen Hs.
  assert (Hload := load_engine_data_reads env w _ Hr Hs
                     ltac:(unfold store_text, store_header; discriminate) Hfit).
  set (w1 := set_engine (load_from_buffer (store_text l) (engine w)) w) in *.
  assert (Hcat : catalog (engine w1) = l) by (now apply load_store_text).
  assert (Hm1 : data_mutex (engine w1) = false).
  { pose proof (load_from_buffer_beside (store_text l) (engine w)) as Hb.
    unfold beside_catalog in Hb. unfold w1. cbn [engine set_engine]. congruence. }
  exists w1, (set_store (Some (store_text (catalog (engine w1)))) (count_save_call w1)).
  split; [exact Hload|]. split.
  - apply save_engine_data_writes; [exact Hm1 | exact Hw | now rewrite Hcat].
  - cbn [store set_store engine count_save_call]. rewrite Hcat. split; [now rewrite Hs|].
    reflexivity.
Qed.

Lemma load_then_save_same_file_witness :
  exists w1 w2,
    load_engine_data (env_ok 2) (world_restart (store_text default_catalog)) = Done 0 w1 /\
    save_engine_data (env_ok 3) w1 = Done 0 w2 /\
    store w2 = Some (store_text default_catalog).
Proof.
  destruct (load_then_save_same_file (env_ok 2) (env_ok 3)
              (world_restart (store_text default_catalog)) default_catalog)
    as (w1 & w2 & H1 & H2 & H3 & _).
  - reflexivity.
  - reflexivity.
  - reflexivity.
  - discriminate.
  - exact default_catalog_storable.
  - vm_compute. lia.
  - vm_compute. lia.
  - vm_compute. lia.
  - reflexivity.
  - exists w1, w2. auto.
Defined.

(** X17: shutdown.  With the mutex free and a catalog whose text fits
    the buffer, [signal_handler] clears [enabled], writes the catalog
    to the data file and returns to [exit]; the catalog itself is
    untouched, and in the world it leaves no turn of any thread does
    anything. *)
Theorem signal_handler_saves (env : Env) (sig : Z) (w : World) :
  data_mutex (engine w) = false ->
  store_writable env = true ->
  (length (store_text (catalog (engine w))) <= 4095)%nat ->
  exists w',
    signal_handler env sig w = Done tt w' /\
    enabled (engine w') = 0 /\
    catalog (engine w') = catalog (engine w) /\
    store w' = Some (store_text (catalog (engine w))) /\
    forall env' s, step_body env' s w' = Done tt w'.
Proof.
  intros Hm Hw Hfit.
  unfold signal_handler.
  set (w1 := add_stdout (lit "SweetEngine: Received signal " ++ print_int sig
                         ++ lit ", shutting down" ++ [NL]) w).
  rewrite (bind_done _ _ w tt w1) by reflexivity.
  set (w2 := set_engine (set_enabled 0 (engine w1)) w1).
  rewrite (bind_done _ _ w1 tt w2) by reflexivity.
  assert (Hsave := save_engine_data_writes env w2 Hm Hw Hfit).
  rewrite (bind_done _ _ w2 0 _ Hsave).
  eexists. split; [reflexivity|].
  repeat split.
Qed.

Lemma signal_handler_saves_witness :
  exists w',
    signal_handler (env_ok 4000) 15 world_seeded = Done tt w' /\
    enabled (engine w') = 0 /\
    store w' = Some (store_text default_catalog).
Proof.
  destruct (signal_handler_saves (env_ok 4000) 15 world_seeded) as (w' & H1 & H2 & _ & H3 & _).
  - reflexivity.
  - reflexivity.
  - vm_compute. lia.
  - exists w'. auto.
Defined.

(** ** An unlock that reaches the data file *)




(** ** The random notification *)

(** X19: for every value [rand] can return, [generate_random_notification]
    picks one of the ten messages of its table (the index never leaves
    the table) and hands it to [send_notification] with type [random]
    and priority 2; with the consumer in reach the payload is written
    whole, otherwise the failure is reported on the standard error
    stream.  Either way the call returns and the engine is untouched. *)
Theorem random_notification_sent (env : Env) (r : Z) (w : World) :
  0 <= r ->
  LONG_MIN <= now env <= LONG_MAX ->
  exists m,
    random_msgs !! Z.to_nat (Z.rem r 10) = Some m /\
    generate_random_notification env r w
    = Done tt (if consumer_up env
               then add_sock_out (notification_text m (lit "random") 2 (now env)) w
               else add_stderr connect_failure w).
Proof.
  intros Hr Hnow.
  assert (Hidx : (Z.to_nat (Z.rem r 10) < length random_msgs)%nat).
  { pose proof (Z.rem_bound_pos r 10 Hr ltac:(lia)).
    change (length random_msgs) with 10%nat.
    generalize dependent (Z.rem r 10). intros x Hx. lia. }
  destruct (lookup_lt_is_Some_2 random_msgs _ Hidx) as [m Hm].
  exists m. split; [exact Hm|].
  unfold generate_random_notification, send_notification.
  rewrite (list_lookup_total_correct _ _ _ Hm).
  destruct (consumer_up env); [|reflexivity].
  cbn [bind modify ret]. do 2 f_equal.
  assert (Hshort : Forall (fun m => (length m <= 30)%nat) random_msgs)
    by (repeat constructor; cbn; lia).
  assert (Hlen : (length m <= 30)%nat).
  { rewrite Forall_forall in Hshort. apply Hshort. eapply list_elem_of_lookup_2. exact Hm. }
  change (notification_payload m (lit "random") 2 (now env))
    with (take 511 (notification_text m (lit "random") 2 (now env))).
  apply take_ge.
  pose proof (length_notification_text m (lit "random") 2 (now env)
                ltac:(unfold LONG_MIN, LONG_MAX; lia) Hnow) as Hl.
  change (length (lit "random")) with 6%nat in Hl. lia.
Qed.

Lemma random_notification_sent_witness :
  exists m,
    random_msgs !! Z.to_nat (Z.rem 1234567 10) = Some m /\
    generate_random_notification (env_ok 3000) 1234567 world_seeded
    = Done tt (add_sock_out (notification_text m (lit "random") 2 3000) world_seeded).
Proof.
  apply (random_notification_sent (env_ok 3000) 1234567 world_seeded).
  - lia.
  - unfold LONG_MIN, LONG_MAX. cbn. lia.
Defined.
